(** * The ID services of implementation_prework.go and their test harness

    Four implementations of the [idService] interface (one method,
    [getNext() uint64]) and the validation harness [RunService] of
    implementation_prework_test.go, embedded as small-step interleaving
    systems. A method body is a transition function from one program point
    to the next; a state holds the service value and the pool of worker
    goroutines started by the harness; a schedule is the list of scheduling
    decisions; running a schedule is a function. *)

From Stdlib Require Import ZArith Lia Sorted.
From stdpp Require Import base tactics option list numbers sorting.

Local Open Scope Z_scope.

(** ** uint64 arithmetic *)

Definition uint64_modulus : Z := 2 ^ 64.

(** Conversion to [uint64]: the value modulo 2^64. *)
Definition uint64 (x : Z) : Z := x mod uint64_modulus.

(** [x++] and [x += 1] on a [uint64]. *)
Definition incr (x : Z) : Z := uint64 (x + 1).

(** The ids 1, 2, ..., k. *)
Definition ids (k : nat) : list Z := Z.of_nat <$> seq 1 k.

(** ** Worker goroutines of the harness

    [RunService] starts [numWorkers] goroutines; each runs
    [for j := 0; j < numCalls; j++ { id := service.getNext(); ...; idChan <- id }].
    A worker is described by the number of calls it still has to complete
    ([numCalls - j]), the program point it has reached inside the current
    [getNext] call, and the ids it has received so far, in call order. The
    comparison of each id with [lastId] belongs to the validator,
    [worker_loop] below. *)

Record worker (PC : Type) := Worker {
  todo : nat;
  pc : PC;
  seen : list Z
}.
Arguments Worker {PC} _ _ _.
Arguments todo {PC} _.
Arguments pc {PC} _.
Arguments seen {PC} _.

(** What one step inside [getNext] leads to: the next program point of the
    method, or its return value. *)
Inductive progress (PC : Type) :=
| Next (p : PC)
| Return (v : Z).
Arguments Next {PC} _.
Arguments Return {PC} _.

Section Workers.
Context {PC : Type}.

(** What each worker has received, worker by worker. *)
Definition observations (ws : list (worker PC)) : list (list Z) := seen <$> ws.

(** All ids received so far by all the workers. *)
Definition returned (ws : list (worker PC)) : list Z := concat (observations ws).

(** Every worker has left its loop. *)
Definition all_done (ws : list (worker PC)) : bool :=
  forallb (λ w, Nat.eqb (todo w) 0) ws.

(** The pool at the start of [RunService]: [N] workers, [M] calls each,
    all at the entry point [entry] of [getNext]. *)
Definition spawn (entry : PC) (N M : nat) : list (worker PC) :=
  replicate N (Worker M entry []).

(** Worker [w] after a step of its current call: it moves on inside the call,
    or the call returns [v], which the worker records before it starts its
    next iteration at [entry]. *)
Definition advance (entry : PC) (w : worker PC) (r : progress PC) : worker PC :=
  match r with
  | Next p => Worker (todo w) p (seen w)
  | Return v => Worker (Nat.pred (todo w)) entry (seen w ++ [v])
  end.
End Workers.

(** ** Running a schedule

    A scheduling decision that is not enabled in the current state (a blocked
    or finished goroutine) leaves the state as it is. *)

Section Execution.
Context {State Action : Type} (step : Action → State → option State).

Fixpoint run (sched : list Action) (s : State) : State :=
  match sched with
  | [] => s
  | a :: rest => run rest (default s (step a s))
  end.
End Execution.

(** ** Workers sharing a service value in memory

    The state of a run on a service that lives in shared memory, and the step
    of worker [t]: it must still be in its loop, and the step of [getNext] at
    its program point must be enabled ([None] is a blocked goroutine). *)

Record shared (Service PC : Type) := Shared {
  service : Service;
  workers : list (worker PC)
}.
Arguments Shared {Service PC} _ _.
Arguments service {Service PC} _.
Arguments workers {Service PC} _.

Section SharedMemory.
Context {Service PC : Type}.
Context (entry : PC) (getNext : PC → Service → option (Service * progress PC)).

Definition shared_step (t : nat) (s : shared Service PC) : option (shared Service PC) :=
  match workers s !! t with
  | Some w =>
      match todo w with
      | O => None
      | S _ =>
          match getNext (pc w) (service s) with
          | Some (sv, r) => Some (Shared sv (<[t := advance entry w r]> (workers s)))
          | None => None
          end
      end
  | None => None
  end.
End SharedMemory.

(** ** noSyncIdService

    [i.id++; return i.id] with no synchronisation: the increment is a load
    followed by a store, and the return statement loads the field again. *)

Module noSyncIdService.
(** [type noSyncIdService struct { id uint64 }] *)
Record t := Make { id : Z }.

Inductive point := AtLoad | AtStore (tmp : Z) | AtReturn.

Definition getNext (p : point) (i : t) : option (t * progress point) :=
  match p with
  | AtLoad => Some (i, Next (AtStore (id i)))
  | AtStore tmp => Some (Make (incr tmp), Next AtReturn)
  | AtReturn => Some (i, Return (id i))
  end.

Definition step : nat → shared t point → option (shared t point) :=
  shared_step AtLoad getNext.

(** [&noSyncIdService{}] shared by [N] workers. *)
Definition init (N M : nat) : shared t point := Shared (Make 0) (spawn AtLoad N M).
End noSyncIdService.

(** ** atomicIdService

    [return atomic.AddUint64(&i.id, 1)]: one indivisible step that adds one
    and yields the new value. *)

Module atomicIdService.
(** [type atomicIdService struct { id uint64 }] *)
Record t := Make { id : Z }.

Definition getNext (p : unit) (i : t) : option (t * progress unit) :=
  let v := incr (id i) in Some (Make v, Return v).

Definition step : nat → shared t unit → option (shared t unit) :=
  shared_step tt getNext.

Definition init (N M : nat) : shared t unit := Shared (Make 0) (spawn tt N M).
End atomicIdService.

(** ** mutexIdService

    [i.Lock(); defer i.Unlock(); i.id += 1; return i.id]. [Lock] blocks while
    the mutex is held. The increment is the same load and store as in
    [noSyncIdService]; the result is read before the deferred [Unlock] runs. *)

Module mutexIdService.
(** [type mutexIdService struct { sync.Mutex; id uint64 }] *)
Record t := Make { locked : bool; id : Z }.

Inductive point := AtLock | AtLoad | AtStore (tmp : Z) | AtReturn | AtUnlock (ret : Z).

Definition getNext (p : point) (i : t) : option (t * progress point) :=
  match p with
  | AtLock => if locked i then None else Some (Make true (id i), Next AtLoad)
  | AtLoad => Some (i, Next (AtStore (id i)))
  | AtStore tmp => Some (Make (locked i) (incr tmp), Next AtReturn)
  | AtReturn => Some (i, Next (AtUnlock (id i)))
  | AtUnlock v =>
      (* Unlock of an unlocked mutex is a fatal error of the runtime *)
      if locked i then Some (Make false (id i), Return v) else None
  end.

Definition step : nat → shared t point → option (shared t point) :=
  shared_step AtLock getNext.

Definition init (N M : nat) : shared t point := Shared (Make false 0) (spawn AtLock N M).
End mutexIdService.

(** ** goroutineIdService

    Two unbuffered channels. [Start] launches a goroutine that owns a local
    [id] and serves [for range s.requests { id++; s.responses <- id }].
    A communication on an unbuffered channel is a rendezvous of one sender
    and one receiver: the step of the caller names the owner goroutine it
    meets. *)

Module goroutineIdService.
(** Where the goroutine launched by [Start] is: blocked receiving from
    [s.requests], about to run [id++], blocked sending on [s.responses],
    or returned. *)
Inductive owner_pc := Listening | Incrementing | Responding | Stopped.

Record owner := Owner {
  opc : owner_pc;
  oid : Z
}.

(** The service value: whether [s.requests] has been closed, and the
    goroutines launched by [Start] on this channel pair. *)
Record t := Make {
  requests_closed : bool;
  owners : list owner
}.

Inductive panic := SendOnClosedChannel | CloseOfClosedChannel.

Inductive result (A : Type) := Ok (a : A) | Panic (p : panic).
Arguments Ok {A} _.
Arguments Panic {A} _.

(** [go func() { id := uint64(0); for range s.requests {...} }()] *)
Definition Start (s : t) : t :=
  Make (requests_closed s) (owners s ++ [Owner Listening 0]).

(** [make] both channels, then [service.Start()]. *)
Definition MakeGoroutineIdService : t :=
  Start (Make false []).

(** [close(s.requests)]; closing a closed channel panics. *)
Definition Stop (s : t) : result t :=
  if requests_closed s then Panic CloseOfClosedChannel
  else Ok (Make true (owners s)).

(** The loop of an owner goroutine, apart from its two communications: it
    leaves the loop when it finds [s.requests] closed, and it increments its
    [id] when it has taken a request. *)
Definition serve (closed : bool) (o : owner) : option owner :=
  match opc o with
  | Listening => if closed then Some (Owner Stopped (oid o)) else None
  | Incrementing => Some (Owner Responding (incr (oid o)))
  | Responding => None
  | Stopped => None
  end.

Definition set_owner (o : nat) (ow : owner) (s : t) : t :=
  Make (requests_closed s) (<[o := ow]> (owners s)).

(** A caller inside [getNext]: at [s.requests <- struct{}{}] or at
    [<-s.responses]. *)
Inductive point := AtSend | AtRecv.

(** A step of [getNext] in which the caller meets owner [o]. Sending on the
    closed channel panics; otherwise the send needs [o] to be receiving, and
    the receive needs [o] to be sending. *)
Definition getNext (p : point) (o : nat) (s : t) : option (result (t * progress point)) :=
  match p with
  | AtSend =>
      if requests_closed s then Some (Panic SendOnClosedChannel)
      else
        match owners s !! o with
        | Some (Owner Listening i) =>
            Some (Ok (set_owner o (Owner Incrementing i) s, Next AtRecv))
        | _ => None
        end
  | AtRecv =>
      match owners s !! o with
      | Some (Owner Responding i) =>
          Some (Ok (set_owner o (Owner Listening i) s, Return i))
      | _ => None
      end
  end.

(** The program: the service, the workers, and the panic that has crashed
    it, if any. *)
Record state := State {
  svc : t;
  workers : list (worker point);
  crashed : option panic
}.

(** [N] workers sharing the service value [sv]. *)
Definition init_with (sv : t) (N M : nat) : state :=
  State sv (spawn AtSend N M) None.

Definition init (N M : nat) : state := init_with MakeGoroutineIdService N M.

Inductive action :=
| Call (t o : nat)   (* worker t takes a step of getNext, meeting owner o *)
| Serve (o : nat)    (* owner o takes a step of its own *)
| Teardown.          (* the teardown of the test case calls Stop *)

Definition step (a : action) (s : state) : option state :=
  match crashed s with
  | Some _ => None
  | None =>
      match a with
      | Call t o =>
          match workers s !! t with
          | Some w =>
              match todo w with
              | O => None
              | S _ =>
                  match getNext (pc w) o (svc s) with
                  | Some (Ok (sv, r)) =>
                      Some (State sv (<[t := advance AtSend w r]> (workers s)) None)
                  | Some (Panic e) => Some (State (svc s) (workers s) (Some e))
                  | None => None
                  end
              end
          | None => None
          end
      | Serve o =>
          match owners (svc s) !! o with
          | Some ow =>
              match serve (requests_closed (svc s)) ow with
              | Some ow' => Some (State (set_owner o ow' (svc s)) (workers s) None)
              | None => None
              end
          | None => None
          end
      | Teardown =>
          match Stop (svc s) with
          | Ok sv => Some (State sv (workers s) None)
          | Panic e => Some (State (svc s) (workers s) (Some e))
          end
      end
  end.
End goroutineIdService.

(** ** The four strategies behind one interface *)

Record system := System {
  sys_state : Type;
  sys_action : Type;
  sys_pc : Type;
  sys_step : sys_action → sys_state → option sys_state;
  sys_init : nat → nat → sys_state;
  sys_workers : sys_state → list (worker sys_pc);
  (* the counter values held by the service: the [id] field, or the local
     [id] of every goroutine launched by [Start] *)
  sys_counters : sys_state → list Z
}.

Inductive strategy := NoSync | Atomic | Mutex | OwnerThread.

Definition system_of (st : strategy) : system :=
  match st with
  | NoSync =>
      System (shared noSyncIdService.t noSyncIdService.point) nat noSyncIdService.point
             noSyncIdService.step noSyncIdService.init
             workers (λ s, [noSyncIdService.id (service s)])
  | Atomic =>
      System (shared atomicIdService.t unit) nat unit
             atomicIdService.step atomicIdService.init
             workers (λ s, [atomicIdService.id (service s)])
  | Mutex =>
      System (shared mutexIdService.t mutexIdService.point) nat mutexIdService.point
             mutexIdService.step mutexIdService.init
             workers (λ s, [mutexIdService.id (service s)])
  | OwnerThread =>
      System goroutineIdService.state goroutineIdService.action goroutineIdService.point
             goroutineIdService.step goroutineIdService.init
             goroutineIdService.workers
             (λ s, goroutineIdService.oid <$> goroutineIdService.owners (goroutineIdService.svc s))
  end.

Definition synchronized (st : strategy) : bool :=
  match st with NoSync => false | _ => true end.

(** The state reached by [N] workers with [M] calls each under [sched]. *)
Definition execute (st : strategy) (N M : nat) (sched : list (sys_action (system_of st)))
  : sys_state (system_of st) :=
  run (sys_step (system_of st)) sched (sys_init (system_of st) N M).

(** The workers in that state. *)
Definition pool (st : strategy) (N M : nat) (sched : list (sys_action (system_of st)))
  : list (worker (sys_pc (system_of st))) :=
  sys_workers (system_of st) (execute st N M sched).
(** ** int arithmetic *)

Definition int_max : Z := 2 ^ 63 - 1.

(** Conversion to [int], 64 bits in two's complement: what the product of
    two [int]s wraps to. *)
Definition int (x : Z) : Z := (x + 2 ^ 63) mod uint64_modulus - 2 ^ 63.

(** [numWorkers] and [numCalls] are [int]s, and their product is one
    without wrapping. *)
Definition in_int_range (N M : nat) : Prop :=
  Z.of_nat N ≤ int_max ∧ Z.of_nat M ≤ int_max ∧ Z.of_nat (N * M) ≤ int_max.

(** ** The validator of RunService *)

Inductive failure :=
| NotMonotonic (id lastId : Z)      (* "Ids not monotonically increasing: got %d after %d" *)
| WrongMax (expectedMax maxId : Z). (* "Max id across workers incorrect: expected %d, got %d" *)

(** How a call of [RunService] ends: it returns, [t.Fatalf] fails the test,
    [make] panics, or a worker stays blocked at [idChan <- id] and
    [eg.Wait()] never returns. *)
Inductive verdict :=
| Passed
| Failed (f : failure)
| SizeOutOfRange   (* panic: makechan: size out of range *)
| Blocked.

(** The loop of one worker on the ids its calls return. [lastId] is declared
    before the loop and is not assigned in it. *)
Fixpoint worker_loop (lastId : Z) (calls : list Z) : option failure :=
  match calls with
  | [] => None
  | id :: rest =>
      if id <? lastId then Some (NotMonotonic id lastId)
      else worker_loop lastId rest
  end.

(** The ids that loop sends on [idChan]: those it receives before it returns
    an error. *)
Fixpoint sent (lastId : Z) (calls : list Z) : list Z :=
  match calls with
  | [] => []
  | id :: rest => if id <? lastId then [] else id :: sent lastId rest
  end.

(** [eg.Wait()]: the first error a worker returned, if any. *)
Fixpoint wait (errs : list (option failure)) : option failure :=
  match errs with
  | [] => None
  | Some e :: _ => Some e
  | None :: rest => wait rest
  end.

(** [for id := range idChan { if maxId < id { maxId = id } }] *)
Definition max_id (idChan : list Z) : Z :=
  fold_left (λ maxId id, if maxId <? id then id else maxId) idChan 0.

(** [RunService] on the ids the service handed to each worker.

    [make(chan uint64, numWorkers*numCalls)] takes the [int] product, wrapped
    if it overflows, and panics when that is negative; a size that is not
    negative is taken to fit in memory. Nothing receives from [idChan] before
    [eg.Wait()] has returned, so when the workers send more ids than the
    buffer holds, one of them blocks and [eg.Wait()] does not return. The
    order in which [idChan] was filled does not matter to the maximum
    ([max_id_perm] below), so the channel is read worker by worker.
    [expectedMax] is the same wrapped product, and [uint64(expectedMax)] its
    conversion. *)
Definition RunService (obs : list (list Z)) (numWorkers numCalls : Z) : verdict :=
  let size := int (numWorkers * numCalls) in
  let idChan := concat (sent 0 <$> obs) in
  if size <? 0 then SizeOutOfRange
  else if size <? Z.of_nat (length idChan) then Blocked
  else
    match wait (worker_loop 0 <$> obs) with
    | Some e => Failed e
    | None =>
        let expectedMax := int (numWorkers * numCalls) in
        let maxId := max_id idChan in
        if maxId =? uint64 expectedMax then Passed
        else Failed (WrongMax expectedMax maxId)
    end.

(** The two error conditions as the specification words them. *)

(** A worker observes a value lower than one it observed before. *)
Definition MonotonicityViolation (obs : list (list Z)) : Prop :=
  ∃ l (i j : nat) x y,
    l ∈ obs ∧ (i < j)%nat ∧ l !! i = Some x ∧ l !! j = Some y ∧ y < x.

(** The largest value returned differs from the number of calls issued. *)
Definition CountMismatch (obs : list (list Z)) (numWorkers numCalls : Z) : Prop :=
  max_id (concat obs) ≠ numWorkers * numCalls.

(** ** Invariants of the worker pool *)

Section PoolInvariant.
Context {PC : Type}.

Definition increasing (l : list Z) : Prop := StronglySorted Z.lt l.

(** A worker of a run with [M] calls per worker. *)
Definition well_formed (M : nat) (w : worker PC) : Prop :=
  increasing (seen w) ∧ (length (seen w) + todo w = M)%nat.

(** [k] calls have returned so far, with the values 1..k, and every worker
    received its values in increasing order. *)
Definition linearised (M k : nat) (ws : list (worker PC)) : Prop :=
  returned ws ≡ₚ ids k ∧ Forall (well_formed M) ws.

(** Worker [t] is at a program point satisfying [P]; every other worker is
    at [entry]. *)
Definition sole (entry : PC) (P : worker PC → Prop) (t : nat) (ws : list (worker PC)) : Prop :=
  (∃ w, ws !! t = Some w ∧ P w) ∧
  ∀ t' w', t' ≠ t → ws !! t' = Some w' → pc w' = entry.
End PoolInvariant.

(** ** Invariants of the synchronised strategies *)

(** atomic: the shared [id] is the number of calls that have returned. *)
Definition atomic_inv (N M : nat) (s : shared atomicIdService.t unit) : Prop :=
  length (workers s) = N ∧
  ∃ k, atomicIdService.id (service s) = Z.of_nat k ∧ linearised M k (workers s).

(** mutex: what the goroutine inside the critical section knows, when [k]
    calls have returned and the field holds [idv]. *)
Definition mutex_holder (k : nat) (idv : Z) (w : worker mutexIdService.point) : Prop :=
  todo w ≠ 0%nat ∧
  match pc w with
  | mutexIdService.AtLock => False
  | mutexIdService.AtLoad => idv = Z.of_nat k
  | mutexIdService.AtStore tmp => tmp = Z.of_nat k
  | mutexIdService.AtReturn => idv = Z.of_nat (S k)
  | mutexIdService.AtUnlock v => v = Z.of_nat (S k) ∧ idv = Z.of_nat (S k)
  end.

(** mutex: the lock is held by exactly one goroutine inside the critical
    section, or by none and everybody is outside. *)
Definition mutex_inv (N M : nat) (s : shared mutexIdService.t mutexIdService.point) : Prop :=
  length (workers s) = N ∧
  ∃ k, linearised M k (workers s) ∧
       if mutexIdService.locked (service s)
       then ∃ t, sole mutexIdService.AtLock
                      (mutex_holder k (mutexIdService.id (service s))) t (workers s)
       else mutexIdService.id (service s) = Z.of_nat k ∧
            Forall (λ w, pc w = mutexIdService.AtLock) (workers s).

(** goroutines: a caller whose request was taken and who waits for the
    response. *)
Definition awaiting (w : worker goroutineIdService.point) : Prop :=
  todo w ≠ 0%nat ∧ pc w = goroutineIdService.AtRecv.

(** goroutines, one owner: the owner's local [id] is the number of calls that
    have returned, plus one while a response is on its way; at most one
    caller waits for a response. *)
Definition goroutine_inv (N M : nat) (s : goroutineIdService.state) : Prop :=
  length (goroutineIdService.workers s) = N ∧
  ∃ k ow, goroutineIdService.owners (goroutineIdService.svc s) = [ow] ∧
          linearised M k (goroutineIdService.workers s) ∧
          match goroutineIdService.opc ow with
          | goroutineIdService.Listening | goroutineIdService.Stopped =>
              goroutineIdService.oid ow = Z.of_nat k ∧
              Forall (λ w, pc w = goroutineIdService.AtSend) (goroutineIdService.workers s)
          | goroutineIdService.Incrementing =>
              goroutineIdService.oid ow = Z.of_nat k ∧
              ∃ t, sole goroutineIdService.AtSend awaiting t (goroutineIdService.workers s)
          | goroutineIdService.Responding =>
              goroutineIdService.oid ow = Z.of_nat (S k) ∧
              ∃ t, sole goroutineIdService.AtSend awaiting t (goroutineIdService.workers s)
          end.

(** no synchronisation, a single caller: the field is the number of calls
    that have returned, plus one once the store has happened. *)
Definition nosync_single_inv (M : nat) (s : shared noSyncIdService.t noSyncIdService.point) : Prop :=
  ∃ k w, workers s = [w] ∧ linearised M k [w] ∧
         match pc w with
         | noSyncIdService.AtLoad => noSyncIdService.id (service s) = Z.of_nat k
         | noSyncIdService.AtStore tmp => tmp = Z.of_nat k
         | noSyncIdService.AtReturn => noSyncIdService.id (service s) = Z.of_nat (S k)
         end.

(** The invariant of each strategy, when the harness runs [N] workers. *)
Definition strategy_inv (st : strategy) (N M : nat) : sys_state (system_of st) → Prop :=
  match st with
  | NoSync => λ s, N = 1%nat → nosync_single_inv M s
  | Atomic => atomic_inv N M
  | Mutex => mutex_inv N M
  | OwnerThread => goroutine_inv N M
  end.

(** ** A schedule that always completes: one worker after the other *)

(** The steps of one [getNext] call of worker [t] when nobody interferes. *)
Definition call (st : strategy) (t : nat) : list (sys_action (system_of st)) :=
  match st with
  | NoSync => [t; t; t]
  | Atomic => [t]
  | Mutex => [t; t; t; t; t]
  | OwnerThread =>
      [goroutineIdService.Call t 0; goroutineIdService.Serve 0;
       goroutineIdService.Call t 0]
  end.

(** [m] calls of worker [t] in a row. *)
Definition calls (st : strategy) (t m : nat) : list (sys_action (system_of st)) :=
  concat (replicate m (call st t)).

(** Worker 0 makes its [M] calls, then worker 1, and so on. *)
Definition one_by_one (st : strategy) (N M : nat) : list (sys_action (system_of st)) :=
  concat ((λ t, calls st t M) <$> seq 0 N).

(** No call is in progress and the service is serving. *)
Definition quiet (st : strategy) : sys_state (system_of st) → Prop :=
  match st with
  | NoSync => λ s, Forall (λ w, pc w = noSyncIdService.AtLoad) (workers s)
  | Atomic => λ _, True
  | Mutex => λ s,
      mutexIdService.locked (service s) = false ∧
      Forall (λ w, pc w = mutexIdService.AtLock) (workers s)
  | OwnerThread => λ s,
      goroutineIdService.crashed s = None ∧
      goroutineIdService.requests_closed (goroutineIdService.svc s) = false ∧
      (∃ i, goroutineIdService.owners (goroutineIdService.svc s)
            = [goroutineIdService.Owner goroutineIdService.Listening i]) ∧
      Forall (λ w, pc w = goroutineIdService.AtSend) (goroutineIdService.workers s)
  end.

(** The calls the workers still have to make. *)
Definition todos (st : strategy) (s : sys_state (system_of st)) : list nat :=
  todo <$> sys_workers (system_of st) s.

(** ** Shutdown as the specification words it *)

(** [Stop] is idempotent: a repeated [Stop] has no further effect and does
    not fail. *)
Definition Stop_idempotent : Prop :=
  ∀ sv sv' : goroutineIdService.t,
    goroutineIdService.Stop sv = goroutineIdService.Ok sv' →
    goroutineIdService.Stop sv' = goroutineIdService.Ok sv'.




(** ** The byte-code machine (package vm)

    [compute] runs the program stored in a byte slice, in place. Bytes are
    integers below 256 with wrap-around arithmetic; indexing a slice or an
    array out of range panics. The machine loops until it meets [Halt], so
    [compute] takes the number of instructions it may execute. *)

Module vm.
Definition Load : Z := 1.
Definition Store : Z := 2.
Definition Add : Z := 3.
Definition Sub : Z := 4.
Definition Addi : Z := 5.
Definition Subi : Z := 6.
Definition Jump : Z := 7.
Definition Beqz : Z := 8.
Definition Halt : Z := 255.

Inductive opcode :=
| OpLoad | OpStore | OpAdd | OpSub | OpAddi | OpSubi | OpJump | OpBeqz | OpHalt.

(** The opcode a byte stands for, if any. *)
Definition decode (op : Z) : option opcode :=
  if decide (op = Load) then Some OpLoad
  else if decide (op = Store) then Some OpStore
  else if decide (op = Add) then Some OpAdd
  else if decide (op = Sub) then Some OpSub
  else if decide (op = Addi) then Some OpAddi
  else if decide (op = Subi) then Some OpSubi
  else if decide (op = Jump) then Some OpJump
  else if decide (op = Beqz) then Some OpBeqz
  else if decide (op = Halt) then Some OpHalt
  else None.

Inductive panic :=
| IndexOutOfRange          (* runtime error: index out of range *)
| NilFunction              (* call of a nil func value *)
| UnknownOpcode (op : Z)   (* "Unknown opcode: %b" *)
| OutOfMemory              (* "Out of memory" *)
| IllegalWrite.            (* "Illegal write to read-only memory!" *)

Inductive res (A : Type) := Ok (a : A) | Err (p : panic).
Arguments Ok {A} _.
Arguments Err {A} _.

#[global] Instance res_bind : MBind res :=
  λ A B f m, match m with Ok a => f a | Err p => Err p end.

(** Conversion to [byte]. *)
Definition byte (x : Z) : Z := x mod 256.

(** [l[i]] as a value. *)
Definition index (l : list Z) (i : Z) : res Z :=
  match l !! Z.to_nat i with
  | Some b => Ok b
  | None => Err IndexOutOfRange
  end.

(** [l[i] = v]. *)
Definition assign (l : list Z) (i v : Z) : res (list Z) :=
  if decide (Z.to_nat i < length l)%nat then Ok (<[Z.to_nat i := v]> l)
  else Err IndexOutOfRange.

(** After one instruction: the machine goes on with this memory and these
    registers, or it has met [Halt]. *)
Inductive next :=
| Continue (memory registers : list Z)
| Done.

(** How a run ends: [Halt] was met, a panic was raised (the memory is as the
    instructions before it left it), or the allowance of instructions is
    used up. *)
Inductive outcome :=
| Halted (memory : list Z)
| Panicked (p : panic) (memory : list Z)
| OutOfFuel (memory registers : list Z).

(** [registers := [3]byte{8, 0, 0}]: PC, R1 and R2. *)
Definition registers0 : list Z := [8; 0; 0].

Section Loop.
Context (step : list Z → list Z → res next).

(** [for { ... }] around one instruction. *)
Fixpoint loop (fuel : nat) (memory registers : list Z) : outcome :=
  match fuel with
  | O => OutOfFuel memory registers
  | S fuel' =>
      match step memory registers with
      | Ok (Continue memory' registers') => loop fuel' memory' registers'
      | Ok Done => Halted memory
      | Err p => Panicked p memory
      end
  end.
End Loop.
End vm.

(** The first [compute]: a [switch] on the opcode. Every case but [Jump] and
    [Halt] first adds 3 to the program counter [registers[0]], then reads its
    operands at [position+1] and [position+2], then acts on the registers
    as they are now. *)

Module vm_switch.
Import vm.

Definition step (memory registers : list Z) : res next :=
  position ← index registers 0;
  op ← index memory position;
  match decode op with
  | Some OpLoad =>
      registers ← assign registers 0 (byte (position + 3));
      reg ← index memory (byte (position + 1));
      addr ← index memory (byte (position + 2));
      v ← index memory addr;
      registers ← assign registers reg v;
      Ok (Continue memory registers)
  | Some OpStore =>
      registers ← assign registers 0 (byte (position + 3));
      reg ← index memory (byte (position + 1));
      addr ← index memory (byte (position + 2));
      v ← index registers reg;
      memory ← assign memory addr v;
      Ok (Continue memory registers)
  | Some OpAdd =>
      registers ← assign registers 0 (byte (position + 3));
      reg1 ← index memory (byte (position + 1));
      reg2 ← index memory (byte (position + 2));
      x ← index registers reg1;
      y ← index registers reg2;
      registers ← assign registers reg1 (byte (x + y));
      Ok (Continue memory registers)
  | Some OpSub =>
      registers ← assign registers 0 (byte (position + 3));
      reg1 ← index memory (byte (position + 1));
      reg2 ← index memory (byte (position + 2));
      x ← index registers reg1;
      y ← index registers reg2;
      registers ← assign registers reg1 (byte (x - y));
      Ok (Continue memory registers)
  | Some OpAddi =>
      registers ← assign registers 0 (byte (position + 3));
      reg ← index memory (byte (position + 1));
      val ← index memory (byte (position + 2));
      x ← index registers reg;
      registers ← assign registers reg (byte (x + val));
      Ok (Continue memory registers)
  | Some OpSubi =>
      registers ← assign registers 0 (byte (position + 3));
      reg ← index memory (byte (position + 1));
      val ← index memory (byte (position + 2));
      x ← index registers reg;
      registers ← assign registers reg (byte (x - val));
      Ok (Continue memory registers)
  | Some OpJump =>
      jumpTo ← index memory (byte (position + 1));
      registers ← assign registers 0 jumpTo;
      Ok (Continue memory registers)
  | Some OpBeqz =>
      registers ← assign registers 0 (byte (position + 3));
      reg ← index memory (byte (position + 1));
      offset ← index memory (byte (position + 2));
      x ← index registers reg;
      if decide (x = 0) then
        pc ← index registers 0;
        registers ← assign registers 0 (byte (pc + offset));
        Ok (Continue memory registers)
      else Ok (Continue memory registers)
  | Some OpHalt => Ok Done
  | None => Err (UnknownOpcode op)
  end.

Definition compute (fuel : nat) (memory : list Z) : outcome :=
  loop step fuel memory registers0.
End vm_switch.

(** The second [compute]: memory longer than 256 bytes is refused, [Halt] is
    tested first, and every other opcode indexes a table of nine functions
    (entry 0 is nil). A function gets the program counter, reads and writes
    the registers through a pointer, and returns the next program counter,
    which the loop then stores into [registers[0]]. [Store] refuses an
    address above 7. *)

Module vm_table.
Import vm.

(** What an instruction function leaves behind: the program counter it
    returns, the memory and the registers. *)
Definition effect : Type := Z * list Z * list Z.

Definition load (pc : Z) (memory registers : list Z) : res effect :=
  reg ← index memory (byte (pc + 1));
  addr ← index memory (byte (pc + 2));
  v ← index memory addr;
  registers ← assign registers reg v;
  Ok (byte (pc + 3), memory, registers).

Definition store (pc : Z) (memory registers : list Z) : res effect :=
  reg ← index memory (byte (pc + 1));
  addr ← index memory (byte (pc + 2));
  if decide (7 < addr) then Err IllegalWrite
  else
    v ← index registers reg;
    memory ← assign memory addr v;
    Ok (byte (pc + 3), memory, registers).

Definition add (pc : Z) (memory registers : list Z) : res effect :=
  reg1 ← index memory (byte (pc + 1));
  reg2 ← index memory (byte (pc + 2));
  x ← index registers reg1;
  y ← index registers reg2;
  registers ← assign registers reg1 (byte (x + y));
  Ok (byte (pc + 3), memory, registers).

Definition sub (pc : Z) (memory registers : list Z) : res effect :=
  reg1 ← index memory (byte (pc + 1));
  reg2 ← index memory (byte (pc + 2));
  x ← index registers reg1;
  y ← index registers reg2;
  registers ← assign registers reg1 (byte (x - y));
  Ok (byte (pc + 3), memory, registers).

Definition addi (pc : Z) (memory registers : list Z) : res effect :=
  reg ← index memory (byte (pc + 1));
  val ← index memory (byte (pc + 2));
  x ← index registers reg;
  registers ← assign registers reg (byte (x + val));
  Ok (byte (pc + 3), memory, registers).

Definition subi (pc : Z) (memory registers : list Z) : res effect :=
  reg ← index memory (byte (pc + 1));
  val ← index memory (byte (pc + 2));
  x ← index registers reg;
  registers ← assign registers reg (byte (x - val));
  Ok (byte (pc + 3), memory, registers).

Definition jump (pc : Z) (memory registers : list Z) : res effect :=
  target ← index memory (byte (pc + 1));
  Ok (target, memory, registers).

Definition beqz (pc : Z) (memory registers : list Z) : res effect :=
  reg ← index memory (byte (pc + 1));
  offset ← index memory (byte (pc + 2));
  x ← index registers reg;
  if decide (x = 0) then Ok (byte (byte (pc + offset) + 3), memory, registers)
  else Ok (byte (pc + 3), memory, registers).

(** [instructions[op]] and the call of the function found there. *)
Definition instructions (op : Z) : res (Z → list Z → list Z → res effect) :=
  if decide (9 ≤ op) then Err IndexOutOfRange
  else
    match decode op with
    | Some OpLoad => Ok load
    | Some OpStore => Ok store
    | Some OpAdd => Ok add
    | Some OpSub => Ok sub
    | Some OpAddi => Ok addi
    | Some OpSubi => Ok subi
    | Some OpJump => Ok jump
    | Some OpBeqz => Ok beqz
    | _ => Err NilFunction
    end.

Definition step (memory registers : list Z) : res next :=
  pc ← index registers 0;
  op ← index memory pc;
  if decide (op = Halt) then Ok Done
  else
    f ← instructions op;
    '(pc', memory, registers) ← f pc memory registers;
    registers ← assign registers 0 pc';
    Ok (Continue memory registers).

Definition compute (fuel : nat) (memory : list Z) : outcome :=
  if decide (256 < length memory)%nat then Panicked OutOfMemory memory
  else loop step fuel memory registers0.
End vm_table.

(** A run of the table machine on which the switch machine does the same:
    at every instruction executed, the opcode is a known one, no register
    operand is the program counter (register 0), and [Store] writes below
    address 8. *)
Definition tame_instruction (memory registers : list Z) : bool :=
  match registers !! 0%nat with
  | Some pc =>
      match memory !! Z.to_nat pc with
      | Some op =>
          let a := default 1 (memory !! Z.to_nat (vm.byte (pc + 1))) in
          let b := default 1 (memory !! Z.to_nat (vm.byte (pc + 2))) in
          match vm.decode op with
          | Some vm.OpLoad | Some vm.OpAddi | Some vm.OpSubi | Some vm.OpBeqz =>
              0 <? a
          | Some vm.OpStore => (0 <? a) && (b <=? 7)
          | Some vm.OpAdd | Some vm.OpSub => (0 <? a) && (0 <? b)
          | Some vm.OpJump | Some vm.OpHalt => true
          | None => false
          end
      | None => true
      end
  | None => true
  end.

Fixpoint tame (fuel : nat) (memory registers : list Z) : bool :=
  match fuel with
  | O => true
  | S fuel' =>
      tame_instruction memory registers &&
      match vm_table.step memory registers with
      | vm.Ok (vm.Continue memory' registers') => tame fuel' memory' registers'
      | _ => true
      end
  end.

(** The memory a run leaves behind, however it ends. *)
Definition outcome_memory (o : vm.outcome) : list Z :=
  match o with
  | vm.Halted memory => memory
  | vm.Panicked _ memory => memory
  | vm.OutOfFuel memory _ => memory
  end.

(** ** sum_to_n.asm

    Six x86-64 instructions on 64-bit registers: the argument arrives in
    [rdi], the result leaves in [rax]. [mul] multiplies [rax] by its operand
    and leaves the 128-bit product in [rdx:rax]. *)

Module sum_to_n_asm.
Inductive register := RAX | RBX | RDX | RDI.

Record regfile := Regfile { rax : Z; rbx : Z; rdx : Z; rdi : Z }.

Definition get (r : register) (f : regfile) : Z :=
  match r with
  | RAX => rax f
  | RBX => rbx f
  | RDX => rdx f
  | RDI => rdi f
  end.

Definition put (r : register) (v : Z) (f : regfile) : regfile :=
  match r with
  | RAX => Regfile v (rbx f) (rdx f) (rdi f)
  | RBX => Regfile (rax f) v (rdx f) (rdi f)
  | RDX => Regfile (rax f) (rbx f) v (rdi f)
  | RDI => Regfile (rax f) (rbx f) (rdx f) v
  end.

Inductive instr :=
| mov (dst src : register)
| inc (r : register)
| mul (r : register)
| shr (r : register) (count : Z)
| ret.

(** One instruction; [None] for [ret]. *)
Definition exec (i : instr) (f : regfile) : option regfile :=
  match i with
  | mov dst src => Some (put dst (get src f) f)
  | inc r => Some (put r (uint64 (get r f + 1)) f)
  | mul r =>
      let product := rax f * get r f in
      Some (put RDX (product / uint64_modulus) (put RAX (uint64 product) f))
  | shr r count => Some (put r (Z.shiftr (get r f) count) f)
  | ret => None
  end.

(** Straight-line code up to the first [ret]. *)
Fixpoint run_code (code : list instr) (f : regfile) : regfile :=
  match code with
  | [] => f
  | i :: rest =>
      match exec i f with
      | Some f' => run_code rest f'
      | None => f
      end
  end.

Definition sum_to_n : list instr :=
  [mov RBX RDI; mov RAX RDI; inc RAX; mul RBX; shr RAX 1; ret].
End sum_to_n_asm.

(** 1 + 2 + ... + k. *)
Fixpoint sum_upto (k : nat) : Z :=
  match k with
  | O => 0
  | S k' => sum_upto k' + Z.of_nat (S k')
  end.

(** ** Further invariants of the services *)

(** mutex: a goroutine between [Lock] and [Unlock]. *)
Definition in_critical_section (w : worker mutexIdService.point) : Prop :=
  todo w ≠ 0%nat ∧ pc w ≠ mutexIdService.AtLock.

(** mutex: the lock is held exactly while one goroutine is in the critical
    section. *)
Definition mutex_excl (s : shared mutexIdService.t mutexIdService.point) : Prop :=
  if mutexIdService.locked (service s)
  then ∃ t, sole mutexIdService.AtLock in_critical_section t (workers s)
  else Forall (λ w, pc w = mutexIdService.AtLock) (workers s).

(** no synchronisation: the stores worker [w] has performed. *)
Definition nosync_stored (w : worker noSyncIdService.point) : nat :=
  (length (seen w) +
   match pc w with noSyncIdService.AtReturn => 1 | _ => 0 end)%nat.

(** no synchronisation: worker [w] when [stores] stores have been performed.
    The value it loaded and the values it received are at most [stores]. *)
Definition nosync_worker_ok (M : nat) (stores : Z) (w : worker noSyncIdService.point) : Prop :=
  (length (seen w) + todo w = M)%nat ∧
  (pc w ≠ noSyncIdService.AtLoad → todo w ≠ 0%nat) ∧
  match pc w with
  | noSyncIdService.AtStore tmp => 0 ≤ tmp ≤ stores
  | _ => True
  end ∧
  Forall (λ v, 1 ≤ v ≤ stores) (seen w).

(** no synchronisation, any number of workers: the field, every value
    loaded and every value returned lie between 0 (1 once a store has
    happened) and the number of stores performed so far. *)
Definition nosync_bounds (M : nat) (s : shared noSyncIdService.t noSyncIdService.point) : Prop :=
  let stores := Z.of_nat (sum_list_with nosync_stored (workers s)) in
  0 ≤ noSyncIdService.id (service s) ≤ stores ∧
  (0 < stores → 1 ≤ noSyncIdService.id (service s)) ∧
  Forall (nosync_worker_ok M stores) (workers s).

(** goroutines: the requests of worker [w] that an owner has taken. *)
Definition accepted (w : worker goroutineIdService.point) : nat :=
  (length (seen w) +
   match pc w with goroutineIdService.AtRecv => 1 | goroutineIdService.AtSend => 0 end)%nat.

(** goroutines: the requests owner [o] has taken. *)
Definition taken (o : goroutineIdService.owner) : nat :=
  (Z.to_nat (goroutineIdService.oid o) +
   match goroutineIdService.opc o with
   | goroutineIdService.Incrementing => 1
   | _ => 0
   end)%nat.

(** goroutines: an owner's [id] is not negative, and at least 1 when it is
    about to be sent. *)
Definition owner_ok (o : goroutineIdService.owner) : Prop :=
  0 ≤ goroutineIdService.oid o ∧
  (goroutineIdService.opc o = goroutineIdService.Responding →
   1 ≤ goroutineIdService.oid o).

(** goroutines: every value worker [w] received is at least 1 and at most
    the [id] of one of the owners [os]. *)
Definition caller_ok (M : nat) (os : list goroutineIdService.owner)
    (w : worker goroutineIdService.point) : Prop :=
  (length (seen w) + todo w = M)%nat ∧
  (pc w = goroutineIdService.AtRecv → todo w ≠ 0%nat) ∧
  Forall (λ v, 1 ≤ v ∧ ∃ o, o ∈ os ∧ v ≤ goroutineIdService.oid o) (seen w).

(** goroutines, any number of owners: the owners have together taken the
    requests the workers have had accepted. *)
Definition owners_inv (M : nat) (s : goroutineIdService.state) : Prop :=
  sum_list_with taken (goroutineIdService.owners (goroutineIdService.svc s))
  = sum_list_with accepted (goroutineIdService.workers s) ∧
  Forall owner_ok (goroutineIdService.owners (goroutineIdService.svc s)) ∧
  Forall (caller_ok M (goroutineIdService.owners (goroutineIdService.svc s)))
         (goroutineIdService.workers s).

(** A service on which [Start] has run any number of times and nothing
    else has happened. *)
Definition just_started (sv : goroutineIdService.t) : Prop :=
  Forall (λ o, o = goroutineIdService.Owner goroutineIdService.Listening 0)
         (goroutineIdService.owners sv).

(** The service can still serve: the program has not crashed and
    [s.requests] is open. *)
Definition serving (st : strategy) : sys_state (system_of st) → Prop :=
  match st with
  | OwnerThread => λ s,
      goroutineIdService.crashed s = None ∧
      goroutineIdService.requests_closed (goroutineIdService.svc s) = false
  | _ => λ _, True
  end.

(** goroutines, several owners: no call is in progress, the service is
    serving, owner 0 is in its receive loop and the other owners are [rest]. *)
Definition quiet_first_owner (rest : list goroutineIdService.owner)
    (s : goroutineIdService.state) : Prop :=
  goroutineIdService.crashed s = None ∧
  goroutineIdService.requests_closed (goroutineIdService.svc s) = false ∧
  (∃ i, goroutineIdService.owners (goroutineIdService.svc s)
        = goroutineIdService.Owner goroutineIdService.Listening i :: rest) ∧
  Forall (λ w, pc w = goroutineIdService.AtSend) (goroutineIdService.workers s).

(** The service value the goroutines test case of [setup] hands to
    [RunService]: [MakeGoroutineIdService()] followed by [service.Start()]. *)
Definition setup_goroutines : goroutineIdService.t :=
  goroutineIdService.Start goroutineIdService.MakeGoroutineIdService.

(** ** Proof automation *)

(** Evaluates the lookup of the worker that takes the next step. *)
Ltac lookup_worker Hw :=
  simpl; try rewrite Hw;
  try rewrite list_lookup_insert_eq by (by rewrite ?length_insert);
  reflexivity.

(** Splits a step of the byte-code machine into its cases: every index,
    every assignment and every test. *)
Ltac vm_cases :=
  unfold mbind, vm.res_bind, vm.assign, vm.index in *;
  repeat (case_match; simplify_eq/=).

(** * Proofs *)

(** ** uint64 and the list of ids *)

Lemma incr_of_nat (k : nat) :
  Z.of_nat (S k) < uint64_modulus → incr (Z.of_nat k) = Z.of_nat (S k).
Proof.
  intros Hk. unfold incr, uint64.
  replace (Z.of_nat k + 1) with (Z.of_nat (S k)) by lia.
  apply Z.mod_small. lia.
Qed.

Lemma ids_S (k : nat) : ids (S k) = ids k ++ [Z.of_nat (S k)].
Proof. unfold ids. rewrite seq_S, fmap_app. reflexivity. Qed.

Lemma length_ids (k : nat) : length (ids k) = k.
Proof. unfold ids. rewrite length_fmap. apply length_seq. Qed.

Lemma elem_of_ids (k : nat) (x : Z) : x ∈ ids k ↔ 1 ≤ x ≤ Z.of_nat k.
Proof.
  unfold ids. rewrite list_elem_of_fmap. split.
  - intros (n & -> & Hn). apply elem_of_seq in Hn. lia.
  - intros Hx. exists (Z.to_nat x). split; [lia|]. apply elem_of_seq. lia.
Qed.

Lemma increasing_ids (k : nat) : increasing (ids k).
Proof.
  induction k as [|k IH]; [constructor|].
  rewrite ids_S. apply StronglySorted_app_2; [|done|repeat constructor].
  intros x y Hx Hy. apply elem_of_ids in Hx. apply list_elem_of_singleton in Hy. lia.
Qed.

(** An increasing list that is a permutation of 1..k is the list 1..k. *)
Lemma increasing_perm_ids (l : list Z) (k : nat) :
  increasing l → l ≡ₚ ids k → l = ids k.
Proof.
  intros Hl Hp.
  apply (StronglySorted_unique_strong Z.lt); [|done|apply increasing_ids|done].
  intros x y _ _ Hxy Hyx. lia.
Qed.

(** ** The worker pool *)

Section PoolLemmas.
Context {PC : Type}.
Implicit Types (ws : list (worker PC)) (w : worker PC).

Lemma returned_cons w ws : returned (w :: ws) = seen w ++ returned ws.
Proof. reflexivity. Qed.

Lemma returned_insert_same ws t w w' :
  ws !! t = Some w → seen w' = seen w → returned (<[t := w']> ws) = returned ws.
Proof.
  revert t. induction ws as [|w0 ws IH]; intros [|t] Hw Hs; try done; simpl in *.
  - simplify_eq. by rewrite !returned_cons, Hs.
  - rewrite !returned_cons. f_equal. by apply IH.
Qed.

Lemma returned_insert_snoc ws t w w' v :
  ws !! t = Some w → seen w' = seen w ++ [v] →
  returned (<[t := w']> ws) ≡ₚ returned ws ++ [v].
Proof.
  revert t. induction ws as [|w0 ws IH]; intros [|t] Hw Hs; try done; simpl in *.
  - simplify_eq. rewrite !returned_cons, Hs, <-!(assoc_L (++)).
    f_equiv. apply Permutation_app_comm.
  - rewrite !returned_cons, <-(assoc_L (++)). f_equiv. by apply IH.
Qed.

Lemma seen_in_returned ws t w x : ws !! t = Some w → x ∈ seen w → x ∈ returned ws.
Proof.
  revert t. induction ws as [|w0 ws IH]; intros [|t] Hw Hx; try done;
    simpl in *; rewrite returned_cons, elem_of_app.
  - simplify_eq. by left.
  - right. by eapply IH.
Qed.

Lemma length_returned_le M ws :
  Forall (well_formed M) ws → (length (returned ws) ≤ length ws * M)%nat.
Proof.
  induction 1 as [|w ws [_ Hw] _ IH]; [done|].
  rewrite returned_cons, length_app. simpl. lia.
Qed.

Lemma length_returned_lt M ws t w :
  Forall (well_formed M) ws → ws !! t = Some w → todo w ≠ 0%nat →
  (length (returned ws) < length ws * M)%nat.
Proof.
  intros Hws. revert t. induction Hws as [|w0 ws [_ Hw0] Hws IH]; intros [|t] Hw Ht;
    try done; simpl in *; rewrite returned_cons, length_app.
  - assert (w0 = w) as -> by congruence.
    pose proof (length_returned_le M ws Hws). lia.
  - specialize (IH t Hw Ht). lia.
Qed.

Lemma length_returned_done M ws :
  Forall (well_formed M) ws → all_done ws = true →
  length (returned ws) = (length ws * M)%nat.
Proof.
  induction 1 as [|w ws [_ Hw] _ IH]; [done|]. simpl.
  intros [Hd Hds]%andb_prop. apply Nat.eqb_eq in Hd.
  rewrite returned_cons, length_app, IH by done. lia.
Qed.

Lemma linearised_spawn (entry : PC) N M : linearised M 0 (spawn entry N M).
Proof.
  split.
  - unfold returned, observations, spawn. rewrite fmap_replicate. simpl.
    induction N as [|N IH]; [done|]. simpl. exact IH.
  - apply Forall_replicate. split; [constructor|done].
Qed.

(** A step inside a call: nothing is returned. *)
Lemma linearised_goto M k ws t w w' :
  ws !! t = Some w → seen w' = seen w → todo w' = todo w →
  linearised M k ws → linearised M k (<[t := w']> ws).
Proof.
  intros Hw Hs Ht [Hp Hf]. split.
  - by erewrite returned_insert_same.
  - apply Forall_insert; [done|].
    destruct (Forall_lookup_1 _ _ _ _ Hf Hw) as [Hi Hl].
    split; [by rewrite Hs|]. by rewrite Hs, Ht.
Qed.

(** The call of worker [t] returns the next id. *)
Lemma linearised_return M k ws t w w' n :
  ws !! t = Some w → todo w = S n →
  seen w' = seen w ++ [Z.of_nat (S k)] → todo w' = n →
  linearised M k ws → linearised M (S k) (<[t := w']> ws).
Proof.
  intros Hw Ht Hs Ht' [Hp Hf]. split.
  - rewrite ids_S, <-Hp. by eapply returned_insert_snoc.
  - apply Forall_insert; [done|].
    destruct (Forall_lookup_1 _ _ _ _ Hf Hw) as [Hi Hl].
    split.
    + rewrite Hs. apply StronglySorted_app_2; [|done|repeat constructor].
      intros x y Hx ->%list_elem_of_singleton.
      assert (x ∈ ids k) as Hk%elem_of_ids by (rewrite <-Hp; by eapply seen_in_returned).
      lia.
    + rewrite Hs, Ht', length_app. simpl. lia.
Qed.

(** While some worker still has calls to make, fewer than [N * M] calls
    have returned. *)
Lemma linearised_lt M k ws t w :
  linearised M k ws → ws !! t = Some w → todo w ≠ 0%nat → (k < length ws * M)%nat.
Proof.
  intros [Hp Hf] Hw Ht. rewrite <-(length_ids k), <-Hp.
  by eapply length_returned_lt.
Qed.

Lemma linearised_done M k ws :
  linearised M k ws → all_done ws = true → k = (length ws * M)%nat.
Proof.
  intros [Hp Hf] Hd. rewrite <-(length_ids k), <-Hp.
  by apply length_returned_done.
Qed.

(** A worker that received a permutation-closed increasing list alone
    received 1..k. *)
Lemma linearised_single M k w : linearised M k [w] → seen w = ids k.
Proof.
  intros [Hp Hf]. apply increasing_perm_ids.
  - by destruct (Forall_inv Hf).
  - revert Hp. unfold returned, observations. simpl. by rewrite (right_id_L [] (++)).
Qed.
End PoolLemmas.

(** ** Executions *)

Section RunLemmas.
Context {State Action : Type} (step : Action → State → option State).

(** A property kept by every step holds along every schedule. *)
Lemma run_invariant (P : State → Prop) :
  (∀ a s s', P s → step a s = Some s' → P s') →
  ∀ sched s, P s → P (run step sched s).
Proof.
  intros Hstep sched. induction sched as [|a sched IH]; intros s Hs; [done|].
  simpl. apply IH. destruct (step a s) as [s'|] eqn:E; simpl; eauto.
Qed.

Lemma run_app (s1 s2 : list Action) (s : State) :
  run step (s1 ++ s2) s = run step s2 (run step s1 s).
Proof. revert s. induction s1 as [|a s1 IH]; intros s; simpl; [done|apply IH]. Qed.
End RunLemmas.

Section SoleLemmas.
Context {PC : Type}.
Implicit Types (ws : list (worker PC)) (w : worker PC) (entry : PC).

Lemma sole_enter entry (P : worker PC → Prop) ws t w w' :
  Forall (λ w, pc w = entry) ws → ws !! t = Some w → P w' →
  sole entry P t (<[t := w']> ws).
Proof.
  intros Hf Hw HP. split.
  - exists w'. split; [|done]. apply list_lookup_insert_eq. by eapply lookup_lt_Some.
  - intros t' w0 Hne. rewrite list_lookup_insert_ne by done.
    intros Hw0. by apply (Forall_lookup_1 _ _ _ _ Hf Hw0).
Qed.

Lemma sole_move entry (P Q : worker PC → Prop) ws t w' :
  sole entry P t ws → Q w' → sole entry Q t (<[t := w']> ws).
Proof.
  intros [(w & Hw & _) Ho] HQ. split.
  - exists w'. split; [|done]. apply list_lookup_insert_eq. by eapply lookup_lt_Some.
  - intros t' w0 Hne. rewrite list_lookup_insert_ne by done. by apply Ho.
Qed.

Lemma sole_leave entry (P : worker PC → Prop) ws t w' :
  sole entry P t ws → pc w' = entry →
  Forall (λ w, pc w = entry) (<[t := w']> ws).
Proof.
  intros [(w & Hw & _) Ho] Hpc. apply Forall_lookup_2. intros t' w0.
  destruct (decide (t' = t)) as [->|Hne].
  - rewrite list_lookup_insert_eq by (by eapply lookup_lt_Some). congruence.
  - rewrite list_lookup_insert_ne by done. by apply Ho.
Qed.

(** Whoever is not at the entry point is the distinguished worker. *)
Lemma sole_is entry (P : worker PC → Prop) ws t t' w' :
  sole entry P t ws → ws !! t' = Some w' → pc w' ≠ entry → t' = t ∧ P w'.
Proof.
  intros [(w & Hw & HP) Ho] Hw' Hpc.
  destruct (decide (t' = t)) as [->|Hne].
  - split; [done|]. congruence.
  - destruct Hpc. by eapply Ho.
Qed.
End SoleLemmas.

(** ** Steps of the shared-memory harness *)

Section SharedStep.
Context {Service PC : Type}.
Context (entry : PC) (getNext : PC → Service → option (Service * progress PC)).

(** What an enabled step of worker [t] consists of. *)
Lemma shared_step_Some (t : nat) (s s' : shared Service PC) :
  shared_step entry getNext t s = Some s' →
  ∃ w n sv r,
    workers s !! t = Some w ∧ todo w = S n ∧
    getNext (pc w) (service s) = Some (sv, r) ∧
    s' = Shared sv (<[t := advance entry w r]> (workers s)).
Proof.
  unfold shared_step. intros Hstep.
  destruct (workers s !! t) as [w|]; [|done].
  destruct (todo w) as [|n] eqn:Ht; [done|].
  destruct (getNext (pc w) (service s)) as [[sv r]|] eqn:Hg; [|done].
  injection Hstep as <-. by exists w, n, sv, r.
Qed.
End SharedStep.

(** ** atomicIdService *)

Lemma atomic_inv_init (N M : nat) : atomic_inv N M (atomicIdService.init N M).
Proof.
  split; [apply length_replicate|]. exists 0%nat. split; [done|].
  apply linearised_spawn.
Qed.

Lemma atomic_inv_step (N M : nat) (t : nat) (s s' : shared atomicIdService.t unit) :
  Z.of_nat (N * M) < uint64_modulus →
  atomic_inv N M s → atomicIdService.step t s = Some s' → atomic_inv N M s'.
Proof.
  intros HB [HN (k & Hid & Hlin)] Hstep.
  apply shared_step_Some in Hstep as (w & n & sv & r & Hw & Ht & Hg & ->).
  unfold atomicIdService.getNext in Hg. injection Hg as <- <-.
  assert (k < N * M)%nat as Hk by (rewrite <-HN; eapply linearised_lt; eauto; lia).
  rewrite Hid, incr_of_nat by lia.
  split; simpl; [by rewrite length_insert|]. exists (S k). split; [done|].
  eapply linearised_return; eauto. simpl. by rewrite Ht.
Qed.

(** ** mutexIdService *)

Lemma mutex_inv_init (N M : nat) : mutex_inv N M (mutexIdService.init N M).
Proof.
  split; [apply length_replicate|]. exists 0%nat. split; [apply linearised_spawn|].
  simpl. split; [done|]. by apply Forall_replicate.
Qed.

Lemma mutex_inv_step (N M : nat) (t : nat)
    (s s' : shared mutexIdService.t mutexIdService.point) :
  Z.of_nat (N * M) < uint64_modulus →
  mutex_inv N M s → mutexIdService.step t s = Some s' → mutex_inv N M s'.
Proof.
  intros HB [HN (k & Hlin & Hlock)] Hstep.
  apply shared_step_Some in Hstep as (w & n & sv & r & Hw & Ht & Hg & ->).
  assert (k < N * M)%nat as Hk by (rewrite <-HN; eapply linearised_lt; eauto; lia).
  destruct s as [[lk idv] ws]; simpl in *.
  destruct w as [d p l]; simpl in *; subst d.
  assert (p ≠ mutexIdService.AtLock → lk = true ∧
          sole mutexIdService.AtLock (mutex_holder k idv) t ws ∧
          mutex_holder k idv (Worker (S n) p l)) as Hin.
  { intros Hp. destruct lk.
    - destruct Hlock as [t0 Hsole].
      destruct (sole_is _ _ _ _ _ _ Hsole Hw) as [-> Hh]; done.
    - destruct Hp. by apply (Forall_lookup_1 _ _ _ _ (proj2 Hlock) Hw). }
  destruct p as [| |tmp| |v]; simpl in Hg.
  - (* Lock *)
    destruct lk; [done|]. injection Hg as <- <-. destruct Hlock as [Hid Hall].
    split; simpl; [by rewrite length_insert|]. exists k.
    split; [by eapply linearised_goto|].
    exists t. eapply sole_enter; [done..|]. by split.
  - (* load *)
    injection Hg as <- <-. destruct Hin as (-> & Hsole & _ & Hh); [done|].
    split; simpl; [by rewrite length_insert|]. exists k.
    split; [by eapply linearised_goto|].
    exists t. eapply sole_move; [done|]. by split.
  - (* store *)
    injection Hg as <- <-. destruct Hin as (-> & Hsole & _ & Hh); [done|].
    simpl in Hh. subst tmp.
    split; simpl; [by rewrite length_insert|]. exists k.
    split; [by eapply linearised_goto|].
    exists t. eapply sole_move; [done|]. split; [done|]. simpl.
    apply incr_of_nat. lia.
  - (* read the result *)
    injection Hg as <- <-. destruct Hin as (-> & Hsole & _ & Hh); [done|].
    split; simpl; [by rewrite length_insert|]. exists k.
    split; [by eapply linearised_goto|].
    exists t. eapply sole_move; [done|]. by split.
  - (* deferred Unlock, return *)
    destruct Hin as (-> & Hsole & _ & Hh); [done|]. injection Hg as <- <-.
    simpl in Hh. destruct Hh as [-> ->].
    split; simpl; [by rewrite length_insert|]. exists (S k).
    split; [by eapply linearised_return|]. split; [done|].
    by eapply sole_leave.
Qed.

(** ** goroutineIdService with the one owner its constructor starts *)

Lemma goroutine_inv_init (N M : nat) : goroutine_inv N M (goroutineIdService.init N M).
Proof.
  split; [apply length_replicate|].
  exists 0%nat, (goroutineIdService.Owner goroutineIdService.Listening 0).
  split; [done|]. split; [apply linearised_spawn|].
  simpl. split; [done|]. by apply Forall_replicate.
Qed.

Lemma goroutine_inv_step (N M : nat) (a : goroutineIdService.action)
    (s s' : goroutineIdService.state) :
  Z.of_nat (N * M) < uint64_modulus →
  goroutine_inv N M s → goroutineIdService.step a s = Some s' → goroutine_inv N M s'.
Proof.
  intros HB [HN (k & ow & Hown & Hlin & Hpc)]. unfold goroutineIdService.step.
  destruct s as [[cl os] ws cr]; simpl in *. subst os.
  destruct cr; [done|].
  destruct a as [t o|o|].
  - (* a caller *)
    destruct (ws !! t) as [[[|n] p l]|] eqn:Hw; simpl; try done.
    destruct p; simpl.
    + (* send the request *)
      destruct cl.
      { intros [= <-]. split; [done|]. by exists k, ow. }
      destruct o as [|o]; [simpl|by destruct o].
      destruct ow as [[| | |] i]; try done. intros [= <-]. simpl in *.
      destruct Hpc as [-> Hall].
      split; simpl; [by rewrite length_insert|]. eexists k, _. split; [done|].
      split; [by eapply linearised_goto|]. simpl. split; [done|].
      exists t. eapply sole_enter; [done..|]. by split.
    + (* receive the response *)
      destruct o as [|o]; [simpl|by destruct o].
      destruct ow as [[| | |] i]; try done. intros [= <-]. simpl in *.
      destruct Hpc as [-> [t0 Hsole]].
      destruct (sole_is _ _ _ _ _ _ Hsole Hw) as [-> _]; [done|].
      split; simpl; [by rewrite length_insert|]. eexists (S k), _. split; [done|].
      split; [by eapply linearised_return|]. simpl. split; [done|].
      by eapply sole_leave.
  - (* the owner *)
    destruct o as [|o]; [simpl|by destruct o].
    destruct ow as [[| | |] i]; unfold goroutineIdService.serve; simpl; try done.
    + (* it leaves its loop *)
      destruct cl; [|done]. intros [= <-]. simpl in *. split; [done|]. by eexists k, _.
    + (* id++ *)
      intros [= <-]. simpl in *. destruct Hpc as [-> [t Hsole]].
      split; [done|]. eexists k, _. split; [done|]. split; [done|]. simpl.
      split; [|by exists t].
      destruct Hsole as [(w & Hw & Hnz & _) _].
      assert (k < N * M)%nat as Hk by (rewrite <-HN; by eapply linearised_lt).
      apply incr_of_nat. lia.
  - (* Stop *)
    unfold goroutineIdService.Stop. simpl. destruct cl; intros [= <-].
    + split; [done|]. by exists k, ow.
    + split; [done|]. by exists k, ow.
Qed.

(** ** noSyncIdService with a single caller *)

Lemma linearised_single_goto {PC} (M k : nat) (w w' : worker PC) :
  seen w' = seen w → todo w' = todo w → linearised M k [w] → linearised M k [w'].
Proof. intros Hs Ht Hlin. by apply (linearised_goto M k [w] 0%nat w w'). Qed.

Lemma linearised_single_return {PC} (M k n : nat) (w w' : worker PC) :
  todo w = S n → seen w' = seen w ++ [Z.of_nat (S k)] → todo w' = n →
  linearised M k [w] → linearised M (S k) [w'].
Proof. intros Ht Hs Ht' Hlin. by apply (linearised_return M k [w] 0%nat w w' n). Qed.

Lemma nosync_single_inv_init (M : nat) : nosync_single_inv M (noSyncIdService.init 1 M).
Proof.
  exists 0%nat, (Worker M noSyncIdService.AtLoad []). split; [done|].
  split; [apply (linearised_spawn _ 1)|done].
Qed.

Lemma nosync_single_inv_step (M : nat) (t : nat)
    (s s' : shared noSyncIdService.t noSyncIdService.point) :
  Z.of_nat M < uint64_modulus →
  nosync_single_inv M s → noSyncIdService.step t s = Some s' → nosync_single_inv M s'.
Proof.
  intros HB (k & w0 & Hws & Hlin & Hpc) Hstep.
  apply shared_step_Some in Hstep as (w & n & sv & r & Hw & Ht & Hg & ->).
  destruct s as [[idv] ws]; simpl in *. subst ws.
  destruct t as [|t]; [simpl in *|by destruct t]. injection Hw as ->.
  assert (k < 1 * M)%nat as Hk
    by (eapply (linearised_lt _ _ [w] 0%nat); eauto; lia).
  destruct w as [d p l]; simpl in *; subst d.
  destruct p as [|tmp|]; simpl in Hg; injection Hg as <- <-; simpl in *.
  - eexists k, _. split; [done|]. split; [|done].
    eapply linearised_single_goto; [..|exact Hlin]; done.
  - eexists k, _. split; [done|]. split.
    + eapply linearised_single_goto; [..|exact Hlin]; done.
    + simpl. subst tmp. apply incr_of_nat. lia.
  - eexists (S k), _. split; [done|]. split; [|done]. subst idv.
    eapply linearised_single_return; [..|exact Hlin]; done.
Qed.

(** ** Every strategy keeps its invariant along every schedule *)

Lemma strategy_inv_run (st : strategy) (N M : nat) (sched : list (sys_action (system_of st))) :
  Z.of_nat (N * M) < uint64_modulus →
  strategy_inv st N M (execute st N M sched).
Proof.
  intros HB. unfold execute. apply run_invariant.
  - intros a s s'. destruct st; simpl.
    + intros Hs Hstep ->. eapply nosync_single_inv_step; [|by apply Hs|done]. lia.
    + by apply atomic_inv_step.
    + by apply mutex_inv_step.
    + by apply goroutine_inv_step.
  - destruct st; simpl.
    + intros ->. apply nosync_single_inv_init.
    + apply atomic_inv_init.
    + apply mutex_inv_init.
    + apply goroutine_inv_init.
Qed.

(** What the invariant of a synchronised strategy says about the pool. *)
Lemma synchronized_linearised (st : strategy) (N M : nat)
    (sched : list (sys_action (system_of st))) :
  synchronized st = true →
  Z.of_nat (N * M) < uint64_modulus →
  length (pool st N M sched) = N ∧ ∃ k, linearised M k (pool st N M sched).
Proof.
  intros Hst HB. pose proof (strategy_inv_run st N M sched HB) as Hinv.
  unfold pool. destruct st; simpl in *; [done| | |].
  - destruct Hinv as [HN (k & _ & Hlin)]. eauto.
  - destruct Hinv as [HN (k & Hlin & _)]. eauto.
  - destruct Hinv as [HN (k & ow & _ & Hlin & _)]. eauto.
Qed.

Lemma increasing_lookup (l : list Z) (i j : nat) (x y : Z) :
  increasing l → (i < j)%nat → l !! i = Some x → l !! j = Some y → x < y.
Proof.
  intros Hl. revert i j. induction Hl as [|a l Hl IH Ha]; intros i j Hij Hi Hj; [done|].
  destruct j as [|j]; [lia|]. destruct i as [|i]; simpl in *.
  - simplify_eq. by eapply (Forall_lookup_1 _ _ _ _ Ha).
  - eapply (IH i j); [lia|done..].
Qed.
(** ** Completion: the workers can always finish *)

Lemma run_cons_Some {State Action : Type} (step : Action → State → option State)
    (a : Action) (rest : list Action) (s s' : State) :
  step a s = Some s' → run step (a :: rest) s = run step rest s'.
Proof. intros E. simpl. by rewrite E. Qed.

(** An undisturbed call of [noSyncIdService.getNext]: the field becomes
    [id + 1], which is also the value returned. *)
Lemma nosync_call (idv : Z) (ws : list (worker noSyncIdService.point)) (t n : nat) (l : list Z) :
  ws !! t = Some (Worker (S n) noSyncIdService.AtLoad l) →
  run noSyncIdService.step [t; t; t] (Shared (noSyncIdService.Make idv) ws)
  = Shared (noSyncIdService.Make (incr idv))
      (<[t := Worker n noSyncIdService.AtLoad (l ++ [incr idv])]> ws).
Proof.
  intros Hw. pose proof (lookup_lt_Some _ _ _ Hw) as Hlt.
  do 3 (erewrite run_cons_Some by (unfold noSyncIdService.step, shared_step; lookup_worker Hw)).
  simpl. by rewrite !list_insert_insert_eq.
Qed.

Lemma atomic_call (idv : Z) (ws : list (worker unit)) (t n : nat) (l : list Z) :
  ws !! t = Some (Worker (S n) tt l) →
  run atomicIdService.step [t] (Shared (atomicIdService.Make idv) ws)
  = Shared (atomicIdService.Make (incr idv)) (<[t := Worker n tt (l ++ [incr idv])]> ws).
Proof.
  intros Hw. by erewrite run_cons_Some by (unfold atomicIdService.step, shared_step; lookup_worker Hw).
Qed.

Lemma mutex_call (idv : Z) (ws : list (worker mutexIdService.point)) (t n : nat) (l : list Z) :
  ws !! t = Some (Worker (S n) mutexIdService.AtLock l) →
  run mutexIdService.step [t; t; t; t; t] (Shared (mutexIdService.Make false idv) ws)
  = Shared (mutexIdService.Make false (incr idv))
      (<[t := Worker n mutexIdService.AtLock (l ++ [incr idv])]> ws).
Proof.
  intros Hw. pose proof (lookup_lt_Some _ _ _ Hw) as Hlt.
  do 5 (erewrite run_cons_Some by (unfold mutexIdService.step, shared_step; lookup_worker Hw)).
  simpl. by rewrite !list_insert_insert_eq.
Qed.

Lemma goroutine_call (i : Z) (ws : list (worker goroutineIdService.point)) (t n : nat) (l : list Z) :
  ws !! t = Some (Worker (S n) goroutineIdService.AtSend l) →
  run goroutineIdService.step (call OwnerThread t)
    (goroutineIdService.State
       (goroutineIdService.Make false
          [goroutineIdService.Owner goroutineIdService.Listening i]) ws None)
  = goroutineIdService.State
      (goroutineIdService.Make false
         [goroutineIdService.Owner goroutineIdService.Listening (incr i)])
      (<[t := Worker n goroutineIdService.AtSend (l ++ [incr i])]> ws) None.
Proof.
  intros Hw. pose proof (lookup_lt_Some _ _ _ Hw) as Hlt. unfold call.
  do 3 (erewrite run_cons_Some
          by (unfold goroutineIdService.step, goroutineIdService.getNext; lookup_worker Hw)).
  simpl. by rewrite !list_insert_insert_eq.
Qed.

Lemma call_quiet (st : strategy) (s : sys_state (system_of st)) (t n : nat)
    (w : worker (sys_pc (system_of st))) :
  quiet st s → sys_workers (system_of st) s !! t = Some w → todo w = S n →
  quiet st (run (sys_step (system_of st)) (call st t) s) ∧
  todos st (run (sys_step (system_of st)) (call st t) s) = <[t := n]> (todos st s).
Proof.
  unfold todos. destruct st; cbn [quiet system_of sys_step sys_workers sys_state sys_pc].
  - destruct s as [[idv] ws]. cbn [workers service]. intros Hq Hw Ht.
    pose proof (Forall_lookup_1 _ _ _ _ Hq Hw) as Hpc.
    destruct w as [d p l]; simpl in Ht, Hpc; subst d p.
    change (call NoSync t) with [t; t; t]. rewrite (nosync_call _ _ _ _ _ Hw).
    cbn [workers service]. split.
    + by apply Forall_insert.
    + by rewrite list_fmap_insert.
  - destruct s as [[idv] ws]. cbn [workers service]. intros _ Hw Ht.
    destruct w as [d [] l]; simpl in Ht; subst d.
    change (call Atomic t) with [t]. rewrite (atomic_call _ _ _ _ _ Hw).
    cbn [workers service]. split; [done|]. by rewrite list_fmap_insert.
  - destruct s as [[lk idv] ws]. cbn [workers service mutexIdService.locked].
    intros [-> Hq] Hw Ht.
    pose proof (Forall_lookup_1 _ _ _ _ Hq Hw) as Hpc.
    destruct w as [d p l]; simpl in Ht, Hpc; subst d p.
    change (call Mutex t) with [t; t; t; t; t]. rewrite (mutex_call _ _ _ _ _ Hw).
    cbn [workers service mutexIdService.locked]. split; [split; [done|]|].
    + by apply Forall_insert.
    + by rewrite list_fmap_insert.
  - destruct s as [[cl os] ws cr].
    cbn [goroutineIdService.workers goroutineIdService.svc goroutineIdService.crashed
         goroutineIdService.requests_closed goroutineIdService.owners].
    intros (-> & -> & [i ->] & Hq) Hw Ht.
    pose proof (Forall_lookup_1 _ _ _ _ Hq Hw) as Hpc.
    destruct w as [d p l]; simpl in Ht, Hpc; subst d p.
    rewrite (goroutine_call _ _ _ _ _ Hw).
    cbn [goroutineIdService.workers goroutineIdService.svc goroutineIdService.crashed
         goroutineIdService.requests_closed goroutineIdService.owners].
    split; [|by rewrite list_fmap_insert].
    split; [done|]. split; [done|]. split; [by eexists|]. by apply Forall_insert.
Qed.

Lemma calls_quiet (st : strategy) (t m n : nat) (s : sys_state (system_of st)) :
  quiet st s → todos st s !! t = Some (m + n)%nat →
  quiet st (run (sys_step (system_of st)) (calls st t m) s) ∧
  todos st (run (sys_step (system_of st)) (calls st t m) s) = <[t := n]> (todos st s).
Proof.
  revert s. induction m as [|m IH]; intros s Hq Hw.
  - simpl. split; [done|]. symmetry. by apply list_insert_id.
  - unfold calls. simpl. rewrite run_app. fold (calls st t m).
    unfold todos in Hw. rewrite list_lookup_fmap in Hw.
    destruct (sys_workers (system_of st) s !! t) as [w|] eqn:Ew; [|done].
    simpl in Hw. injection Hw as Hw.
    destruct (call_quiet st s t (m + n) w Hq Ew Hw) as [Hq' Ht'].
    destruct (IH _ Hq') as [Hq'' Ht''].
    + rewrite Ht'. apply list_lookup_insert_eq.
      unfold todos. rewrite length_fmap. by eapply lookup_lt_Some.
    + split; [done|]. by rewrite Ht'', Ht', list_insert_insert_eq.
Qed.

Lemma init_quiet (st : strategy) (N M : nat) :
  quiet st (sys_init (system_of st) N M) ∧
  todos st (sys_init (system_of st) N M) = replicate N M.
Proof.
  unfold todos. destruct st; simpl; unfold spawn; rewrite fmap_replicate;
    (split; [|done]); repeat split; eauto using Forall_replicate.
Qed.

Lemma one_by_one_prefix (st : strategy) (N M j : nat) :
  (j ≤ N)%nat →
  quiet st (execute st N M (one_by_one st j M)) ∧
  todos st (execute st N M (one_by_one st j M)) = replicate j 0%nat ++ replicate (N - j) M.
Proof.
  unfold execute, one_by_one. induction j as [|j IH]; intros Hj.
  - simpl. rewrite Nat.sub_0_r. apply init_quiet.
  - destruct IH as [Hq Ht]; [lia|].
    rewrite seq_S, fmap_app, concat_app, run_app. simpl. rewrite (right_id_L [] (++)).
    destruct (calls_quiet st j M 0 _ Hq) as [Hq' Ht'].
    + rewrite Ht, lookup_app_r, length_replicate, Nat.sub_diag, Nat.add_0_r
        by (by rewrite length_replicate).
      apply lookup_replicate_2. lia.
    + split; [done|]. rewrite Ht', Ht.
      rewrite insert_app_r_alt, length_replicate, Nat.sub_diag
        by (by rewrite length_replicate).
      replace (N - j)%nat with (S (N - S j)) by lia.
      change (0%nat :: replicate j 0%nat ++ replicate (N - S j) M)
        with (replicate (S j) 0%nat ++ replicate (N - S j) M).
      by rewrite (replicate_S_end j), <-(assoc_L (++)).
Qed.

(** Under the schedule [one_by_one] every worker completes all its calls. *)
Lemma one_by_one_done (st : strategy) (N M : nat) :
  all_done (pool st N M (one_by_one st N M)) = true.
Proof.
  destruct (one_by_one_prefix st N M N) as [_ Ht]; [done|].
  rewrite Nat.sub_diag in Ht. change (replicate 0 M) with (@nil nat) in Ht.
  rewrite (right_id_L [] (++)) in Ht.
  unfold todos in Ht. fold (pool st N M (one_by_one st N M)) in Ht.
  revert Ht. generalize (pool st N M (one_by_one st N M)). clear.
  induction N as [|N IH]; intros [|w ws]; simpl; try done.
  intros [= -> Hws]. simpl. by apply IH.
Qed.

(** ** A single caller *)

(** The single worker of a run with one worker has received 1, 2, ..., j,
    where j is the number of calls it has completed. *)
Lemma single_caller_seen (st : strategy) (M : nat) (sched : list (sys_action (system_of st))) :
  Z.of_nat M < uint64_modulus →
  ∃ w, pool st 1 M sched = [w] ∧ (todo w ≤ M)%nat ∧ seen w = ids (M - todo w).
Proof.
  intros HB.
  assert (∃ k w, pool st 1 M sched = [w] ∧ linearised M k [w]) as (k & w & Hp & Hlin).
  { pose proof (strategy_inv_run st 1 M sched) as Hinv.
    unfold pool. destruct st; simpl in *.
    - destruct Hinv as (k & w & Hw & Hlin & _); [lia|done|]. eauto.
    - destruct Hinv as [HN (k & _ & Hlin)]; [lia|].
      destruct (workers _) as [|w [|]]; try done. eauto.
    - destruct Hinv as [HN (k & Hlin & _)]; [lia|].
      destruct (workers _) as [|w [|]]; try done. eauto.
    - destruct Hinv as [HN (k & ow & _ & Hlin & _)]; [lia|].
      destruct (goroutineIdService.workers _) as [|w [|]]; try done. eauto. }
  exists w. split; [done|].
  pose proof (linearised_single _ _ _ Hlin) as Hseen.
  destruct Hlin as [_ [_ Hlen]%Forall_inv].
  rewrite Hseen, length_ids in Hlen. split; [lia|].
  rewrite Hseen. f_equal. lia.
Qed.

Lemma single_caller_done (st : strategy) (M : nat) (sched : list (sys_action (system_of st))) :
  Z.of_nat M < uint64_modulus →
  all_done (pool st 1 M sched) = true →
  observations (pool st 1 M sched) = [ids M].
Proof.
  intros HB Hdone. destruct (single_caller_seen st M sched HB) as (w & Hp & _ & Hseen).
  rewrite Hp in Hdone |- *. simpl in *.
  apply andb_prop in Hdone as [Hw%Nat.eqb_eq _].
  by rewrite Hseen, Hw, Nat.sub_0_r.
Qed.

(** ** The validator *)

Lemma worker_loop_zero (calls : list Z) :
  Forall (λ id, 0 ≤ id) calls → worker_loop 0 calls = None.
Proof.
  induction 1 as [|id calls Hid _ IH]; [done|]. simpl.
  destruct (Z.ltb_spec id 0); [lia|done].
Qed.

Lemma wait_all_nil (obs : list (list Z)) :
  Forall (Forall (λ id, 0 ≤ id)) obs → wait (worker_loop 0 <$> obs) = None.
Proof.
  induction 1 as [|calls obs Hc _ IH]; [done|]. simpl.
  by rewrite (worker_loop_zero calls Hc).
Qed.

Lemma sent_zero (calls : list Z) :
  Forall (λ id, 0 ≤ id) calls → sent 0 calls = calls.
Proof.
  induction 1 as [|id calls Hid _ IH]; [done|]. simpl.
  destruct (Z.ltb_spec id 0); [lia|by rewrite IH].
Qed.

Lemma sent_all (obs : list (list Z)) :
  Forall (Forall (λ id, 0 ≤ id)) obs → sent 0 <$> obs = obs.
Proof.
  induction 1 as [|calls obs Hc _ IH]; [done|]. rewrite fmap_cons.
  by rewrite (sent_zero calls Hc), IH.
Qed.

Lemma int_small (x : Z) : 0 ≤ x ≤ int_max → int x = x.
Proof.
  unfold int, int_max, uint64_modulus. intros Hx.
  rewrite Z.mod_small by lia. lia.
Qed.

Lemma in_int_range_uint64 (N M : nat) :
  in_int_range N M → Z.of_nat (N * M) < uint64_modulus.
Proof.
  unfold in_int_range, int_max, uint64_modulus. lia.
Qed.

(** On [uint64] ids the comparison with [lastId] never fires. When the
    product is an [int] and the buffer holds every id, the verdict of
    [RunService] is decided by the maximum alone. *)
Lemma RunService_by_max (obs : list (list Z)) (numWorkers numCalls : Z) :
  Forall (Forall (λ id, 0 ≤ id)) obs →
  0 ≤ numWorkers * numCalls ≤ int_max →
  Z.of_nat (length (concat obs)) ≤ numWorkers * numCalls →
  RunService obs numWorkers numCalls
  = if max_id (concat obs) =? uint64 (numWorkers * numCalls) then Passed
    else Failed (WrongMax (numWorkers * numCalls) (max_id (concat obs))).
Proof.
  intros Hobs Hint Hlen. unfold RunService.
  rewrite (sent_all obs Hobs), (wait_all_nil obs Hobs), (int_small _ Hint).
  destruct (Z.ltb_spec (numWorkers * numCalls) 0); [lia|].
  destruct (Z.ltb_spec (numWorkers * numCalls) (Z.of_nat (length (concat obs))));
    [lia|done].
Qed.

Lemma RunService_passed_iff (obs : list (list Z)) (numWorkers numCalls : Z) :
  Forall (Forall (λ id, 0 ≤ id)) obs →
  0 ≤ numWorkers * numCalls ≤ int_max →
  Z.of_nat (length (concat obs)) ≤ numWorkers * numCalls →
  RunService obs numWorkers numCalls = Passed ↔
  max_id (concat obs) = uint64 (numWorkers * numCalls).
Proof.
  intros Hobs Hint Hlen. rewrite RunService_by_max by done.
  destruct (Z.eqb_spec (max_id (concat obs)) (uint64 (numWorkers * numCalls)));
    split; done.
Qed.

(** [max_id] is the maximum of 0 and the ids read from the channel. *)
Lemma max_id_foldr (l : list Z) : max_id l = foldr Z.max 0 l.
Proof.
  unfold max_id. generalize 0 as a. induction l as [|x l IH]; intros a; [done|].
  simpl. rewrite IH. clear IH.
  replace (if a <? x then x else a) with (Z.max a x)
    by (destruct (Z.ltb_spec a x); lia).
  revert a. induction l as [|y l IH]; intros a; simpl; [lia|].
  rewrite IH. lia.
Qed.

(** The order in which the workers filled [idChan] does not matter. *)
Lemma max_id_perm (l l' : list Z) : l ≡ₚ l' → max_id l = max_id l'.
Proof.
  intros Hp. rewrite !max_id_foldr.
  induction Hp as [|x l l' _ IH|x y l|l1 l2 l3 _ IH1 _ IH2]; simpl; lia.
Qed.

Lemma max_id_ids (k : nat) : max_id (ids k) = Z.of_nat k.
Proof.
  induction k as [|k IH]; [done|].
  rewrite ids_S. unfold max_id in *. rewrite fold_left_app, IH.
  cbn [fold_left]. destruct (Z.ltb_spec (Z.of_nat k) (Z.of_nat (S k))); lia.
Qed.

(** X12. A run of the atomic, the mutex or the singly started owner-thread
    service that has completed passes [RunService], under every schedule,
    whenever [numWorkers], [numCalls] and their product are [int]s: the
    cases of [TestServices] that use the services as their constructors make
    them cannot fail. *)
Lemma RunService_passes_synchronized (st : strategy) (N M : nat)
    (sched : list (sys_action (system_of st))) :
  synchronized st = true →
  in_int_range N M →
  all_done (pool st N M sched) = true →
  RunService (observations (pool st N M sched)) (Z.of_nat N) (Z.of_nat M) = Passed.
Proof.
  intros Hst Hint Hdone.
  pose proof (in_int_range_uint64 N M Hint) as HB.
  destruct Hint as (_ & _ & Hint).
  destruct (synchronized_linearised st N M sched Hst HB) as [HN [k Hlin]].
  pose proof (linearised_done _ _ _ Hlin Hdone) as Hk. rewrite HN in Hk. subst k.
  destruct Hlin as [Hp _].
  assert (concat (observations (pool st N M sched)) = returned (pool st N M sched))
    as Hret by done.
  apply RunService_passed_iff; rewrite <-?Nat2Z.inj_mul.
  - apply Forall_lookup_2. intros t l Hl. apply Forall_forall. intros x Hx.
    unfold observations in Hl. rewrite list_lookup_fmap in Hl.
    destruct (pool st N M sched !! t) as [w|] eqn:Hw; [|done].
    injection Hl as <-.
    assert (x ∈ ids (N * M)) as Hin%elem_of_ids
      by (rewrite <-Hp; by eapply seen_in_returned).
    lia.
  - lia.
  - rewrite Hret, (Permutation_length Hp), length_ids. lia.
  - rewrite Hret, (max_id_perm _ _ Hp), max_id_ids.
    unfold uint64. symmetry. apply Z.mod_small. lia.
Qed.

(** ** Shutdown of the goroutine service *)

(** Nothing reopens [s.requests]. *)
Lemma closed_step (a : goroutineIdService.action) (s s' : goroutineIdService.state) :
  goroutineIdService.step a s = Some s' →
  goroutineIdService.requests_closed (goroutineIdService.svc s) = true →
  goroutineIdService.requests_closed (goroutineIdService.svc s') = true.
Proof.
  unfold goroutineIdService.step, goroutineIdService.getNext, goroutineIdService.serve,
    goroutineIdService.Stop, goroutineIdService.set_owner.
  intros Hstep Hc. destruct a; repeat case_match; simplify_eq; done.
Qed.

Lemma Stop_closes (sv sv' : goroutineIdService.t) :
  goroutineIdService.Stop sv = goroutineIdService.Ok sv' →
  goroutineIdService.requests_closed sv' = true.
Proof.
  unfold goroutineIdService.Stop. destruct (goroutineIdService.requests_closed sv); [done|].
  by intros [= <-].
Qed.

(** A goroutine that has left its loop takes no further step. *)
Lemma stopped_step (a : goroutineIdService.action) (s s' : goroutineIdService.state)
    (o : nat) (i : Z) :
  goroutineIdService.step a s = Some s' →
  goroutineIdService.owners (goroutineIdService.svc s) !! o
  = Some (goroutineIdService.Owner goroutineIdService.Stopped i) →
  goroutineIdService.owners (goroutineIdService.svc s') !! o
  = Some (goroutineIdService.Owner goroutineIdService.Stopped i).
Proof.
  unfold goroutineIdService.step, goroutineIdService.getNext, goroutineIdService.serve,
    goroutineIdService.Stop, goroutineIdService.set_owner.
  intros Hstep Ho.
  destruct a as [t o'|o'|]; repeat case_match; simplify_eq; simpl; try done;
    (destruct (decide (o' = o)) as [->|Hne];
     [rewrite Ho in *; by simplify_eq/= | by rewrite list_lookup_insert_ne]).
Qed.






(** * The claims *)

(** C1. Atomic, mutex and owner-thread strategies: when [N] workers have each
    completed [M] calls of [getNext] on one shared service, under any
    schedule, the values returned are a permutation of 1, 2, ..., N×M: no
    value is duplicated and none is skipped. Executions in which all calls
    complete exist for every [N] and [M]. The values are [uint64], so the
    statement is for N×M below 2^64. *)
Theorem returned_ids_permutation (st : strategy) (N M : nat)
    (sched : list (sys_action (system_of st))) :
  synchronized st = true →
  Z.of_nat (N * M) < uint64_modulus →
  all_done (pool st N M (one_by_one st N M)) = true ∧
  (all_done (pool st N M sched) = true →
   returned (pool st N M sched) ≡ₚ ids (N * M)).
Proof.
  intros Hst HB. split; [apply one_by_one_done|]. intros Hdone.
  destruct (synchronized_linearised st N M sched Hst HB) as [HN [k Hlin]].
  rewrite <-HN at 2. rewrite <-(linearised_done _ _ _ Hlin Hdone). apply Hlin.
Qed.

Lemma returned_ids_permutation_witness :
  returned (pool Atomic 2 2 [0; 1; 1; 0]%nat) ≡ₚ ids 4 ∧
  returned (pool Mutex 2 2
              [0; 1; 0; 0; 0; 0; 1; 1; 1; 1; 1; 1; 1; 1; 1; 1; 0; 0; 0; 0; 0]%nat) ≡ₚ ids 4 ∧
  returned (pool OwnerThread 2 2
              [goroutineIdService.Call 0 0; goroutineIdService.Call 1 0;
               goroutineIdService.Serve 0; goroutineIdService.Call 0 0;
               goroutineIdService.Call 1 0; goroutineIdService.Serve 0;
               goroutineIdService.Call 1 0;
               goroutineIdService.Call 1 0; goroutineIdService.Serve 0;
               goroutineIdService.Call 1 0;
               goroutineIdService.Call 0 0; goroutineIdService.Serve 0;
               goroutineIdService.Call 0 0]) ≡ₚ ids 4.
Proof.
  split; [|split].
  - apply (returned_ids_permutation Atomic 2 2); reflexivity.
  - apply (returned_ids_permutation Mutex 2 2); reflexivity.
  - apply (returned_ids_permutation OwnerThread 2 2); reflexivity.
Defined.

(** C2. No synchronisation: there is an execution with two callers in which
    both load the same value of [id] before either stores; each then returns
    the same id, so the returned values contain a duplicate and their maximum
    is below the number of calls. [RunService] fails that run. *)
Theorem nosync_duplicate_ids :
  ∃ reads rest : list nat,
    workers (execute NoSync 2 1 reads)
    = [Worker 1 (noSyncIdService.AtStore 0) []; Worker 1 (noSyncIdService.AtStore 0) []] ∧
    all_done (pool NoSync 2 1 (reads ++ rest)) = true ∧
    observations (pool NoSync 2 1 (reads ++ rest)) = [[1]; [1]] ∧
    ¬ NoDup (returned (pool NoSync 2 1 (reads ++ rest))) ∧
    max_id (returned (pool NoSync 2 1 (reads ++ rest))) < 2 * 1 ∧
    RunService (observations (pool NoSync 2 1 (reads ++ rest))) 2 1
    = Failed (WrongMax 2 1).
Proof.
  exists [0; 1]%nat, [0; 1; 0; 1]%nat.
  repeat split; try reflexivity.
  intros Hnd. apply NoDup_cons_1_1 in Hnd. apply Hnd. by left.
Qed.

(** C3. Every strategy: a fresh service holds the value 0, and when a single
    worker calls [getNext] sequentially its i-th call returns i: at any point
    of any schedule the worker has received exactly 1, ..., j for the j calls
    it has completed, and it can complete all [M] calls, receiving 1, ..., M
    (M below 2^64). With one worker and one call the value returned is 1. *)
Theorem single_caller_counts (st : strategy) (M : nat)
    (sched : list (sys_action (system_of st))) :
  Z.of_nat M < uint64_modulus →
  sys_counters (system_of st) (sys_init (system_of st) 1 M) = [0] ∧
  (∃ w, pool st 1 M sched = [w] ∧ (todo w ≤ M)%nat ∧ seen w = ids (M - todo w)) ∧
  observations (pool st 1 M (one_by_one st 1 M)) = [ids M].
Proof.
  intros HB. split; [by destruct st|]. split; [by apply single_caller_seen|].
  apply single_caller_done; [done|]. apply one_by_one_done.
Qed.

Lemma single_caller_counts_witness :
  Z.of_nat 1 < uint64_modulus ∧
  observations (pool NoSync 1 1 (one_by_one NoSync 1 1)) = [[1]] ∧
  observations (pool Atomic 1 1 (one_by_one Atomic 1 1)) = [[1]] ∧
  observations (pool Mutex 1 1 (one_by_one Mutex 1 1)) = [[1]] ∧
  observations (pool OwnerThread 1 1 (one_by_one OwnerThread 1 1)) = [[1]].
Proof.
  split; [reflexivity|]. split; [|split; [|split]].
  - apply (single_caller_counts NoSync 1 []). reflexivity.
  - apply (single_caller_counts Atomic 1 []). reflexivity.
  - apply (single_caller_counts Mutex 1 []). reflexivity.
  - apply (single_caller_counts OwnerThread 1 []). reflexivity.
Defined.

(** C4. [RunService] is meant to fail a run when a worker receives an id
    lower than one it received before, or when the largest id differs from
    [numWorkers * numCalls]. One worker that receives 2 and then 1 in a run
    of one worker and two calls has a monotonicity violation and no count
    mismatch, and [RunService] passes the run. *)
Theorem RunService_misses_descending_ids :
  MonotonicityViolation [[2; 1]] ∧
  ¬ CountMismatch [[2; 1]] 1 2 ∧
  RunService [[2; 1]] 1 2 = Passed.
Proof.
  split; [|split].
  - exists [2; 1], 0%nat, 1%nat, 2, 1.
    split; [by left|]. split; [lia|]. split; [done|]. split; [done|lia].
  - intros H. by apply H.
  - reflexivity.
Qed.

(** C5. Owner-thread strategy: once [Stop] has returned, a worker that goes
    on to call [getNext] does not block: whatever has happened since, its
    send on [s.requests] is enabled and its outcome is the panic
    "send on closed channel". *)
Theorem getNext_after_Stop_panics (sv sv' : goroutineIdService.t)
    (N M : nat) (sched : list goroutineIdService.action) (t o n : nat) (l : list Z) :
  goroutineIdService.Stop sv = goroutineIdService.Ok sv' →
  goroutineIdService.crashed
    (run goroutineIdService.step sched (goroutineIdService.init_with sv' N M)) = None →
  goroutineIdService.workers
    (run goroutineIdService.step sched (goroutineIdService.init_with sv' N M)) !! t
  = Some (Worker (S n) goroutineIdService.AtSend l) →
  goroutineIdService.crashed
    <$> goroutineIdService.step (goroutineIdService.Call t o)
          (run goroutineIdService.step sched (goroutineIdService.init_with sv' N M))
  = Some (Some goroutineIdService.SendOnClosedChannel).
Proof.
  intros Hstop Hcr Hw.
  assert (goroutineIdService.requests_closed
            (goroutineIdService.svc
               (run goroutineIdService.step sched
                  (goroutineIdService.init_with sv' N M))) = true) as Hc.
  { apply (run_invariant goroutineIdService.step
             (λ s, goroutineIdService.requests_closed (goroutineIdService.svc s) = true)).
    - intros a s s' Hs Hstep. by eapply closed_step.
    - simpl. by eapply Stop_closes. }
  revert Hcr Hw Hc.
  generalize (run goroutineIdService.step sched (goroutineIdService.init_with sv' N M)).
  intros s Hcr Hw Hc. unfold goroutineIdService.step, goroutineIdService.getNext.
  rewrite Hcr, Hw. simpl. by rewrite Hc.
Qed.

Lemma getNext_after_Stop_panics_witness :
  goroutineIdService.Stop goroutineIdService.MakeGoroutineIdService
  = goroutineIdService.Ok
      (goroutineIdService.Make true
         [goroutineIdService.Owner goroutineIdService.Listening 0]) ∧
  goroutineIdService.crashed
    <$> goroutineIdService.step (goroutineIdService.Call 0 0)
          (goroutineIdService.init_with
             (goroutineIdService.Make true
                [goroutineIdService.Owner goroutineIdService.Listening 0]) 1 1)
  = Some (Some goroutineIdService.SendOnClosedChannel).
Proof.
  split; [reflexivity|].
  apply (getNext_after_Stop_panics goroutineIdService.MakeGoroutineIdService
           _ 1 1 [] 0 0 0 []); reflexivity.
Defined.

(** C6. [Start] has no guard: called on the service that
    [MakeGoroutineIdService] has already started, as the test setup does, it
    leaves two owner goroutines on the same channel pair, each with its own
    [id]. Two workers with one call each can then both receive 1, and
    [RunService] fails the run. *)
Theorem double_Start_two_owners :
  goroutineIdService.owners
    (goroutineIdService.Start goroutineIdService.MakeGoroutineIdService)
  = [goroutineIdService.Owner goroutineIdService.Listening 0;
     goroutineIdService.Owner goroutineIdService.Listening 0] ∧
  ∃ sched : list goroutineIdService.action,
    let ws := goroutineIdService.workers
                (run goroutineIdService.step sched
                   (goroutineIdService.init_with
                      (goroutineIdService.Start goroutineIdService.MakeGoroutineIdService)
                      2 1)) in
    all_done ws = true ∧
    observations ws = [[1]; [1]] ∧
    RunService (observations ws) 2 1 = Failed (WrongMax 2 1).
Proof.
  split; [reflexivity|].
  exists [goroutineIdService.Call 0 0; goroutineIdService.Call 1 1;
          goroutineIdService.Serve 0; goroutineIdService.Serve 1;
          goroutineIdService.Call 0 0; goroutineIdService.Call 1 1].
  by vm_compute.
Qed.



(** C9 as worded fails: a second [Stop] on the service made by the constructor
    panics, also when the teardown runs twice, so [Stop] is not idempotent. *)
Lemma Stop_twice_panics :
  goroutineIdService.Stop goroutineIdService.MakeGoroutineIdService
  = goroutineIdService.Ok
      (goroutineIdService.Make true
         [goroutineIdService.Owner goroutineIdService.Listening 0]) ∧
  goroutineIdService.Stop
    (goroutineIdService.Make true
       [goroutineIdService.Owner goroutineIdService.Listening 0])
  = goroutineIdService.Panic goroutineIdService.CloseOfClosedChannel ∧
  goroutineIdService.crashed
    (run goroutineIdService.step
       [goroutineIdService.Teardown; goroutineIdService.Teardown]
       (goroutineIdService.init 1 1))
  = Some goroutineIdService.CloseOfClosedChannel ∧
  ¬ Stop_idempotent.
Proof.
  split; [reflexivity|]. split; [reflexivity|]. split; [reflexivity|].
  intros H. by specialize (H goroutineIdService.MakeGoroutineIdService _ eq_refl).
Qed.

(** C9, amended. [Stop] on a service whose request channel is open returns
    without a panic and closes the channel, leaving the owner goroutines as
    they are; [Stop] is not idempotent: the next [Stop] panics with
    "close of closed channel". *)
Theorem Stop_once_then_panics (sv : goroutineIdService.t) :
  goroutineIdService.requests_closed sv = false →
  ∃ sv' : goroutineIdService.t,
    goroutineIdService.Stop sv = goroutineIdService.Ok sv' ∧
    goroutineIdService.requests_closed sv' = true ∧
    goroutineIdService.owners sv' = goroutineIdService.owners sv ∧
    goroutineIdService.Stop sv'
    = goroutineIdService.Panic goroutineIdService.CloseOfClosedChannel.
Proof.
  intros Hopen. unfold goroutineIdService.Stop. rewrite Hopen.
  by eexists.
Qed.

Lemma Stop_once_then_panics_witness :
  goroutineIdService.requests_closed goroutineIdService.MakeGoroutineIdService = false ∧
  ∃ sv' : goroutineIdService.t,
    goroutineIdService.Stop goroutineIdService.MakeGoroutineIdService
    = goroutineIdService.Ok sv' ∧
    goroutineIdService.requests_closed sv' = true ∧
    goroutineIdService.owners sv'
    = goroutineIdService.owners goroutineIdService.MakeGoroutineIdService ∧
    goroutineIdService.Stop sv'
    = goroutineIdService.Panic goroutineIdService.CloseOfClosedChannel.
Proof.
  split; [reflexivity|].
  apply (Stop_once_then_panics goroutineIdService.MakeGoroutineIdService).
  reflexivity.
Defined.

(** C10. [noSyncIdService] used by a single caller: k sequential calls on a
    fresh instance return exactly 1, 2, ..., k (k below 2^64), the same
    values every other strategy returns to a single caller. *)
Theorem nosync_single_caller (k : nat) (sched : list nat) :
  Z.of_nat k < uint64_modulus →
  observations (pool NoSync 1 k (calls NoSync 0 k)) = [ids k] ∧
  (all_done (pool NoSync 1 k sched) = true →
   observations (pool NoSync 1 k sched) = [ids k] ∧
   ∀ (st : strategy) (sched' : list (sys_action (system_of st))),
     all_done (pool st 1 k sched') = true →
     observations (pool st 1 k sched') = observations (pool NoSync 1 k sched)).
Proof.
  intros HB. split.
  - replace (calls NoSync 0 k) with (one_by_one NoSync 1 k)
      by (unfold one_by_one; simpl; apply (right_id_L [] (++))).
    apply (single_caller_done NoSync); [done|]. apply one_by_one_done.
  - intros Hdone. rewrite (single_caller_done NoSync k sched HB Hdone).
    split; [done|]. intros st sched' Hdone'. by apply single_caller_done.
Qed.

Lemma nosync_single_caller_witness :
  Z.of_nat 3 < uint64_modulus ∧
  observations (pool NoSync 1 3 [0; 0; 0; 0; 0; 0; 0; 0; 0]%nat) = [[1; 2; 3]].
Proof.
  split; [reflexivity|].
  apply (nosync_single_caller 3 []). reflexivity.
Defined.

(** * Further properties of the services and the harness *)

(** ** Mutual exclusion *)

Lemma mutex_excl_step (t : nat) (s s' : shared mutexIdService.t mutexIdService.point) :
  mutex_excl s → mutexIdService.step t s = Some s' → mutex_excl s'.
Proof.
  unfold mutex_excl. intros Hex Hstep.
  apply shared_step_Some in Hstep as (w & n & sv & r & Hw & Ht & Hg & ->).
  destruct s as [[lk idv] ws]; simpl in *.
  destruct w as [d p l]; simpl in *; subst d.
  assert (p ≠ mutexIdService.AtLock → lk = true ∧
          sole mutexIdService.AtLock in_critical_section t ws) as Hin.
  { intros Hp. destruct lk.
    - destruct Hex as [t0 Hsole].
      by destruct (sole_is _ _ _ _ _ _ Hsole Hw) as [-> _].
    - destruct Hp. by apply (Forall_lookup_1 _ _ _ _ Hex Hw). }
  destruct p as [| |tmp| |v]; simpl in Hg.
  - destruct lk; [done|]. injection Hg as <- <-. simpl.
    exists t. eapply sole_enter; [done..|]. by split.
  - injection Hg as <- <-. destruct Hin as [-> Hsole]; [done|]. simpl.
    exists t. eapply sole_move; [done|]. by split.
  - injection Hg as <- <-. destruct Hin as [-> Hsole]; [done|]. simpl.
    exists t. eapply sole_move; [done|]. by split.
  - injection Hg as <- <-. destruct Hin as [-> Hsole]; [done|]. simpl.
    exists t. eapply sole_move; [done|]. by split.
  - destruct Hin as [-> Hsole]; [done|]. injection Hg as <- <-. simpl.
    by eapply sole_leave.
Qed.

Lemma mutex_excl_run (N M : nat) (sched : list nat) :
  mutex_excl (execute Mutex N M sched).
Proof.
  unfold execute. apply run_invariant.
  - intros a s s'. apply mutex_excl_step.
  - simpl. by apply Forall_replicate.
Qed.

(** X1. mutexIdService: in every state of every execution at most one worker
    is between [Lock] and the deferred [Unlock]; while one is, the mutex is
    held, so that [Unlock] never meets an unlocked mutex. No bound on the
    number of calls is needed. *)
Theorem mutex_mutual_exclusion (N M : nat) (sched : list nat) (t1 t2 : nat)
    (w1 w2 : worker mutexIdService.point) :
  pool Mutex N M sched !! t1 = Some w1 →
  pool Mutex N M sched !! t2 = Some w2 →
  pc w1 ≠ mutexIdService.AtLock →
  pc w2 ≠ mutexIdService.AtLock →
  t1 = t2 ∧ mutexIdService.locked (service (execute Mutex N M sched)) = true.
Proof.
  unfold pool. simpl. intros H1 H2 Hp1 Hp2.
  pose proof (mutex_excl_run N M sched) as Hex. unfold mutex_excl in Hex.
  destruct (mutexIdService.locked (service (execute Mutex N M sched))).
  - destruct Hex as [t Hsole].
    destruct (sole_is _ _ _ _ _ _ Hsole H1 Hp1) as [-> _].
    by destruct (sole_is _ _ _ _ _ _ Hsole H2 Hp2) as [-> _].
  - destruct Hp1. by apply (Forall_lookup_1 _ _ _ _ Hex H1).
Qed.

Lemma mutex_mutual_exclusion_witness :
  pool Mutex 2 2 [0; 1; 0; 1; 0]%nat !! 0%nat
  = Some (Worker 2 mutexIdService.AtReturn []) ∧
  mutexIdService.locked (service (execute Mutex 2 2 [0; 1; 0; 1; 0]%nat)) = true.
Proof.
  split; [reflexivity|].
  apply (mutex_mutual_exclusion 2 2 [0; 1; 0; 1; 0]%nat 0 0
           (Worker 2 mutexIdService.AtReturn []) (Worker 2 mutexIdService.AtReturn []));
    first [reflexivity | discriminate].
Defined.

(** ** The goroutine service does not panic before [Stop] *)

Lemma serving_step (a : goroutineIdService.action) (s s' : goroutineIdService.state) :
  a ≠ goroutineIdService.Teardown →
  goroutineIdService.requests_closed (goroutineIdService.svc s) = false →
  goroutineIdService.step a s = Some s' →
  goroutineIdService.crashed s' = None ∧
  goroutineIdService.requests_closed (goroutineIdService.svc s') = false.
Proof.
  unfold goroutineIdService.step, goroutineIdService.getNext, goroutineIdService.serve,
    goroutineIdService.set_owner.
  intros Ha Hc Hstep. destruct a; [| |done]; repeat case_match; simplify_eq; simpl; done.
Qed.

(** X2. goroutineIdService, with any number of owner goroutines: as long as
    the teardown has not called [Stop], no execution panics and the request
    channel stays open. *)
Theorem goroutine_no_panic_before_Stop (sv : goroutineIdService.t) (N M : nat)
    (sched : list goroutineIdService.action) :
  goroutineIdService.requests_closed sv = false →
  goroutineIdService.Teardown ∉ sched →
  goroutineIdService.crashed
    (run goroutineIdService.step sched (goroutineIdService.init_with sv N M)) = None ∧
  goroutineIdService.requests_closed
    (goroutineIdService.svc
       (run goroutineIdService.step sched (goroutineIdService.init_with sv N M))) = false.
Proof.
  intros Hopen.
  assert (goroutineIdService.crashed (goroutineIdService.init_with sv N M) = None ∧
          goroutineIdService.requests_closed
            (goroutineIdService.svc (goroutineIdService.init_with sv N M)) = false) as H0
    by done.
  revert H0. generalize (goroutineIdService.init_with sv N M).
  induction sched as [|a sched IH]; intros s [Hcr Hc] Hno; [done|].
  apply not_elem_of_cons in Hno as [Hne Hno].
  simpl. apply IH; [|done].
  destruct (goroutineIdService.step a s) as [s'|] eqn:Hstep; simpl; [|done].
  eapply serving_step; [|done..]. congruence.
Qed.

Lemma goroutine_no_panic_before_Stop_witness :
  goroutineIdService.crashed
    (run goroutineIdService.step
       [goroutineIdService.Call 0 1; goroutineIdService.Call 1 0;
        goroutineIdService.Serve 1; goroutineIdService.Call 0 1]
       (goroutineIdService.init_with
          (goroutineIdService.Start goroutineIdService.MakeGoroutineIdService) 2 1))
  = None.
Proof.
  apply (goroutine_no_panic_before_Stop
           (goroutineIdService.Start goroutineIdService.MakeGoroutineIdService) 2 1
           [goroutineIdService.Call 0 1; goroutineIdService.Call 1 0;
            goroutineIdService.Serve 1; goroutineIdService.Call 0 1]);
    [reflexivity|].
  intros H. repeat (apply elem_of_cons in H as [H|H]; [discriminate|]).
  by apply elem_of_nil in H.
Defined.

(** ** Sums over the pool *)

Lemma sum_list_with_insert {A} (f : A → nat) (l : list A) (i : nat) (x y : A) :
  l !! i = Some x →
  (sum_list_with f (<[i := y]> l) + f x = sum_list_with f l + f y)%nat.
Proof.
  revert i. induction l as [|a l IH]; intros [|i] Hi; try done; simpl in *.
  - simplify_eq. lia.
  - specialize (IH i Hi). lia.
Qed.

Lemma sum_list_with_le {A} (f : A → nat) (l : list A) (b : nat) :
  Forall (λ x, f x ≤ b)%nat l → (sum_list_with f l ≤ length l * b)%nat.
Proof. induction 1; simpl; lia. Qed.

Lemma sum_list_with_lt {A} (f : A → nat) (l : list A) (b : nat) (i : nat) (x : A) :
  Forall (λ x, f x ≤ b)%nat l → l !! i = Some x → (f x < b)%nat →
  (sum_list_with f l < length l * b)%nat.
Proof.
  intros Hl. revert i. induction Hl as [|a l Ha Hl IH]; intros [|i] Hi Hx;
    try done; simpl in *.
  - assert (a = x) as -> by congruence.
    pose proof (sum_list_with_le f l b Hl). lia.
  - specialize (IH i Hi Hx). lia.
Qed.

(** ** noSyncIdService under contention *)

Lemma nosync_worker_ok_mono (M : nat) (stores stores' : Z)
    (w : worker noSyncIdService.point) :
  stores ≤ stores' → nosync_worker_ok M stores w → nosync_worker_ok M stores' w.
Proof.
  intros Hle (Hlen & Hnz & Htmp & Hseen). repeat split; try done.
  - destruct (pc w); try done. lia.
  - eapply Forall_impl; [done|]. simpl. lia.
Qed.

Lemma nosync_stored_le (M : nat) (stores : Z) (w : worker noSyncIdService.point) :
  nosync_worker_ok M stores w → (nosync_stored w ≤ M)%nat.
Proof.
  intros (Hlen & Hnz & _ & _). unfold nosync_stored.
  destruct (pc w); try lia. assert (todo w ≠ 0%nat) by (by apply Hnz). lia.
Qed.

Lemma nosync_bounds_init (N M : nat) : nosync_bounds M (noSyncIdService.init N M).
Proof.
  unfold nosync_bounds. simpl.
  assert (sum_list_with nosync_stored (spawn noSyncIdService.AtLoad N M) = 0%nat) as ->.
  { unfold spawn. induction N as [|N IH]; [done|]. simpl. by rewrite IH. }
  split; [simpl; lia|]. split; [simpl; lia|].
  apply Forall_replicate. by repeat split.
Qed.

Lemma nosync_bounds_step (N M : nat) (t : nat)
    (s s' : shared noSyncIdService.t noSyncIdService.point) :
  Z.of_nat (N * M) < uint64_modulus →
  length (workers s) = N →
  nosync_bounds M s → noSyncIdService.step t s = Some s' → nosync_bounds M s'.
Proof.
  unfold nosync_bounds. intros HB HN (Hid & Hpos & Hws) Hstep.
  apply shared_step_Some in Hstep as (w & n & sv & r & Hw & Ht & Hg & ->).
  destruct s as [[idv] ws]; simpl in *.
  pose proof (Forall_lookup_1 _ _ _ _ Hws Hw) as Hok.
  assert (Forall (λ w, nosync_stored w ≤ M)%nat ws) as Hle
    by (eapply Forall_impl; [done|]; apply nosync_stored_le).
  pose proof (sum_list_with_le _ _ _ Hle) as Hsum. rewrite HN in Hsum.
  destruct w as [d p l]; simpl in *; subst d.
  destruct Hok as (Hlen & Hnz & Htmp & Hseen); simpl in *.
  destruct p as [|tmp|]; simpl in Hg; injection Hg as <- <-; simpl.
  - (* load *)
    pose proof (sum_list_with_insert nosync_stored ws t _
                  (Worker (S n) (noSyncIdService.AtStore idv) l) Hw) as Hins.
    change (nosync_stored (Worker (S n) noSyncIdService.AtLoad l))
      with (length l + 0)%nat in Hins.
    change (nosync_stored (Worker (S n) (noSyncIdService.AtStore idv) l))
      with (length l + 0)%nat in Hins.
    replace (sum_list_with nosync_stored (<[t:=_]> ws))
      with (sum_list_with nosync_stored ws) by lia.
    split; [done|]. split; [done|].
    apply Forall_insert; [done|]. repeat split; simpl; try done; lia.
  - (* store *)
    pose proof (sum_list_with_insert nosync_stored ws t _
                  (Worker (S n) noSyncIdService.AtReturn l) Hw) as Hins.
    change (nosync_stored (Worker (S n) (noSyncIdService.AtStore tmp) l))
      with (length l + 0)%nat in Hins.
    change (nosync_stored (Worker (S n) noSyncIdService.AtReturn l))
      with (length l + 1)%nat in Hins.
    assert (sum_list_with nosync_stored ws < N * M)%nat as Hlt.
    { rewrite <-HN. apply (sum_list_with_lt nosync_stored ws M t _ Hle Hw).
      unfold nosync_stored. simpl. lia. }
    replace (sum_list_with nosync_stored (<[t:=_]> ws))
      with (S (sum_list_with nosync_stored ws)) by lia.
    assert (incr tmp = tmp + 1) as ->
      by (unfold incr, uint64; apply Z.mod_small; unfold uint64_modulus in *; lia).
    split; [lia|]. split; [lia|].
    apply Forall_insert.
    + eapply Forall_impl; [exact Hws|]. intros w0. apply nosync_worker_ok_mono. lia.
    + repeat split; try done. simpl.
      eapply Forall_impl; [exact Hseen|]. simpl. lia.
  - (* return *)
    pose proof (sum_list_with_insert nosync_stored ws t _
                  (Worker n noSyncIdService.AtLoad (l ++ [idv])) Hw) as Hins.
    change (nosync_stored (Worker (S n) noSyncIdService.AtReturn l))
      with (length l + 1)%nat in Hins.
    change (nosync_stored (Worker n noSyncIdService.AtLoad (l ++ [idv])))
      with (length (l ++ [idv]) + 0)%nat in Hins.
    rewrite length_app in Hins. simpl in Hins.
    assert (0 < sum_list_with nosync_stored ws)%nat as Hstored.
    { pose proof (sum_list_with_in _ nosync_stored ws (list_elem_of_lookup_2 _ _ _ Hw)) as H.
      change (nosync_stored (Worker (S n) noSyncIdService.AtReturn l))
        with (length l + 1)%nat in H. lia. }
    replace (sum_list_with nosync_stored (<[t:=_]> ws))
      with (sum_list_with nosync_stored ws) by lia.
    split; [done|]. split; [done|].
    apply Forall_insert; [done|]. repeat split; simpl.
    + rewrite length_app. simpl. lia.
    + done.
    + apply Forall_app. split; [done|]. apply Forall_singleton. lia.
Qed.

Lemma nosync_bounds_run (N M : nat) (sched : list nat) :
  Z.of_nat (N * M) < uint64_modulus →
  length (workers (execute NoSync N M sched)) = N ∧
  nosync_bounds M (execute NoSync N M sched).
Proof.
  intros HB. unfold execute.
  apply (run_invariant _ (λ s, length (workers s) = N ∧ nosync_bounds M s)).
  - intros a s s' [HN Hb] Hstep. split; [|by eapply nosync_bounds_step].
    apply shared_step_Some in Hstep as (w & n & sv & r & Hw & Ht & Hg & ->).
    simpl. by rewrite length_insert.
  - split; [apply length_replicate|apply nosync_bounds_init].
Qed.

Lemma elem_of_returned {PC} (ws : list (worker PC)) (x : Z) :
  x ∈ returned ws ↔ ∃ w, w ∈ ws ∧ x ∈ seen w.
Proof.
  induction ws as [|w ws IH].
  - split; [by intros ?%elem_of_nil|]. by intros (w & ?%elem_of_nil & _).
  - rewrite returned_cons, elem_of_app, IH. split.
    + intros [Hx|(w' & Hw' & Hx)]; [exists w|exists w']; split; try done;
        [by left|by right].
    + intros (w' & [->|Hw']%elem_of_cons & Hx); [by left|right; eauto].
Qed.

Lemma max_id_ub (l : list Z) (x : Z) : x ∈ l → x ≤ max_id l.
Proof.
  rewrite max_id_foldr. induction 1 as [x l|x y l _ IH]; simpl; lia.
Qed.

Lemma max_id_in (l : list Z) : max_id l = 0 ∨ max_id l ∈ l.
Proof.
  rewrite max_id_foldr. induction l as [|x l IH]; [by left|]. simpl.
  destruct (Z.max_spec x (foldr Z.max 0 l)) as [[_ ->]|[_ ->]].
  - destruct IH as [IH|IH]; [by left|right; by right].
  - right. by left.
Qed.

(** Every id returned without synchronisation lies between 1 and the number
    of calls the harness makes. *)
Lemma nosync_ids_bounded_aux (N M : nat) (sched : list nat) (v : Z) :
  Z.of_nat (N * M) < uint64_modulus →
  v ∈ returned (pool NoSync N M sched) →
  1 ≤ v ≤ Z.of_nat (N * M).
Proof.
  intros HB Hv. destruct (nosync_bounds_run N M sched HB) as [HN (_ & _ & Hws)].
  unfold pool in Hv. simpl in *.
  assert (Forall (λ w, nosync_stored w ≤ M)%nat (workers (execute NoSync N M sched))) as Hle
    by (eapply Forall_impl; [exact Hws|]; apply nosync_stored_le).
  pose proof (sum_list_with_le _ _ _ Hle) as Hsum. rewrite HN in Hsum.
  apply elem_of_returned in Hv as (w & Hw & Hv).
  destruct (proj1 (Forall_forall _ _) Hws w Hw) as (_ & _ & _ & Hseen).
  pose proof (proj1 (Forall_forall _ _) Hseen v Hv). simpl in *. lia.
Qed.

(** X3. noSyncIdService under any number of concurrent callers: in every
    state of every interleaving the counter lies between 0 and the number of
    calls the harness makes, and every id returned so far lies between 1 and
    that number (N×M below 2^64). Ids can be lost, never invented. *)
Theorem nosync_ids_bounded (N M : nat) (sched : list nat) :
  Z.of_nat (N * M) < uint64_modulus →
  0 ≤ noSyncIdService.id (service (execute NoSync N M sched)) ≤ Z.of_nat (N * M) ∧
  ∀ v, v ∈ returned (pool NoSync N M sched) → 1 ≤ v ≤ Z.of_nat (N * M).
Proof.
  intros HB. split; [|intros v Hv; by apply (nosync_ids_bounded_aux N M sched)].
  destruct (nosync_bounds_run N M sched HB) as [HN (Hid & _ & Hws)].
  assert (Forall (λ w, nosync_stored w ≤ M)%nat (workers (execute NoSync N M sched))) as Hle
    by (eapply Forall_impl; [exact Hws|]; apply nosync_stored_le).
  pose proof (sum_list_with_le _ _ _ Hle) as Hsum. rewrite HN in Hsum. lia.
Qed.

(** Two workers, one call each: after both have stored and before either has
    returned, nothing has been returned and the counter is 1; at the end
    both have received 1. *)
Lemma nosync_ids_bounded_witness :
  returned (pool NoSync 2 1 [0; 1; 0; 1]%nat) = [] ∧
  (0 ≤ noSyncIdService.id (service (execute NoSync 2 1 [0; 1; 0; 1]%nat))
     ≤ Z.of_nat (2 * 1) ∧
   ∀ v, v ∈ returned (pool NoSync 2 1 [0; 1; 0; 1]%nat) → 1 ≤ v ≤ Z.of_nat (2 * 1)) ∧
  returned (pool NoSync 2 1 [0; 1; 0; 1; 0; 1]%nat) = [1; 1] ∧
  (0 ≤ noSyncIdService.id (service (execute NoSync 2 1 [0; 1; 0; 1; 0; 1]%nat))
     ≤ Z.of_nat (2 * 1) ∧
   ∀ v, v ∈ returned (pool NoSync 2 1 [0; 1; 0; 1; 0; 1]%nat) →
        1 ≤ v ≤ Z.of_nat (2 * 1)).
Proof.
  split; [reflexivity|]. split.
  - apply (nosync_ids_bounded 2 1 [0; 1; 0; 1]%nat). reflexivity.
  - split; [reflexivity|].
    apply (nosync_ids_bounded 2 1 [0; 1; 0; 1; 0; 1]%nat). reflexivity.
Defined.

Lemma length_returned_all_done {PC} (M : nat) (ws : list (worker PC)) :
  Forall (λ w, length (seen w) + todo w = M)%nat ws → all_done ws = true →
  length (returned ws) = (length ws * M)%nat.
Proof.
  induction 1 as [|w ws Hw _ IH]; [done|]. simpl.
  intros [Hd Hds]%andb_prop. apply Nat.eqb_eq in Hd.
  rewrite returned_cons, length_app, IH by done. lia.
Qed.

Lemma elem_of_concat_2 (x : Z) (l : list Z) (ls : list (list Z)) :
  x ∈ l → l ∈ ls → x ∈ concat ls.
Proof.
  intros Hx. induction 1 as [l ls|l l' ls _ IH]; simpl; apply elem_of_app; auto.
Qed.

(** What [RunService] answers when nothing returned is below 1 or above the
    expected maximum. *)
Lemma RunService_bounded_verdict (obs : list (list Z)) (N M : nat) :
  Z.of_nat (N * M) ≤ int_max →
  length (concat obs) = (N * M)%nat →
  (∀ v, v ∈ concat obs → 1 ≤ v ≤ Z.of_nat (N * M)) →
  RunService obs (Z.of_nat N) (Z.of_nat M) = Passed ∨
  ∃ m, 1 ≤ m < Z.of_nat N * Z.of_nat M ∧
       RunService obs (Z.of_nat N) (Z.of_nat M)
       = Failed (WrongMax (Z.of_nat N * Z.of_nat M) m).
Proof.
  intros HB Hlen Hb. rewrite RunService_by_max; rewrite <-?Nat2Z.inj_mul.
  2:{ apply Forall_forall. intros l Hl. apply Forall_forall. intros x Hx.
      assert (x ∈ concat obs) as Hin by (by eapply elem_of_concat_2).
      specialize (Hb x Hin). lia. }
  2, 3: lia.
  assert (uint64 (Z.of_nat (N * M)) = Z.of_nat (N * M)) as ->
    by (apply Z.mod_small; unfold int_max, uint64_modulus in *; lia).
  destruct (Z.eqb_spec (max_id (concat obs)) (Z.of_nat (N * M))) as [Heq|Hne];
    [by left|].
  right. exists (max_id (concat obs)). split; [|done].
  destruct (max_id_in (concat obs)) as [H0|Hin].
  - (* a maximum of 0 means that nothing was returned, so N×M = 0 *)
    destruct (concat obs) as [|x l]; [simpl in Hlen; lia|].
    assert (x ∈ x :: l) as Hx by (by left).
    pose proof (Hb x Hx). pose proof (max_id_ub _ x Hx). lia.
  - specialize (Hb _ Hin). lia.
Qed.

(** X4. The negative control: when [RunService] has run to the end on
    [noSyncIdService], it either passes or fails with "Max id across workers
    incorrect" and a maximum that is at least 1 and below the expected
    N×M ([numWorkers], [numCalls] and their product being [int]s). It never
    reports a maximum that is too high. *)
Theorem nosync_RunService_verdict (N M : nat) (sched : list nat) :
  in_int_range N M →
  all_done (pool NoSync N M sched) = true →
  RunService (observations (pool NoSync N M sched)) (Z.of_nat N) (Z.of_nat M) = Passed ∨
  ∃ m, 1 ≤ m < Z.of_nat N * Z.of_nat M ∧
       RunService (observations (pool NoSync N M sched)) (Z.of_nat N) (Z.of_nat M)
       = Failed (WrongMax (Z.of_nat N * Z.of_nat M) m).
Proof.
  intros Hint Hdone.
  pose proof (in_int_range_uint64 N M Hint) as HB.
  pose proof (nosync_bounds_run N M sched HB) as [HN (_ & _ & Hws)].
  apply RunService_bounded_verdict; [apply Hint| |].
  - fold (returned (pool NoSync N M sched)).
    assert (Forall (λ w, length (seen w) + todo w = M)%nat (pool NoSync N M sched)) as Hwf
      by (eapply Forall_impl; [exact Hws|]; by intros w (Hl & _)).
    rewrite (length_returned_all_done M _ Hwf Hdone). unfold pool. simpl.
    by rewrite HN.
  - intros v Hv. by apply (nosync_ids_bounded_aux N M sched).
Qed.

Lemma nosync_RunService_verdict_witness :
  all_done (pool NoSync 2 1 [0; 1; 0; 1; 0; 1]%nat) = true ∧
  (RunService (observations (pool NoSync 2 1 [0; 1; 0; 1; 0; 1]%nat)) 2 1 = Passed ∨
   ∃ m, 1 ≤ m < 2 * 1 ∧
        RunService (observations (pool NoSync 2 1 [0; 1; 0; 1; 0; 1]%nat)) 2 1
        = Failed (WrongMax (2 * 1) m)).
Proof.
  split; [reflexivity|].
  apply (nosync_RunService_verdict 2 1 [0; 1; 0; 1; 0; 1]%nat);
    [unfold in_int_range, int_max; simpl; lia|reflexivity].
Defined.

(** ** The goroutine service with any number of owners *)

Lemma caller_ok_update (M : nat) (os : list goroutineIdService.owner) (o : nat)
    (old new : goroutineIdService.owner) (w : worker goroutineIdService.point) :
  os !! o = Some old →
  goroutineIdService.oid old ≤ goroutineIdService.oid new →
  caller_ok M os w → caller_ok M (<[o := new]> os) w.
Proof.
  intros Ho Hle (Hlen & Hnz & Hseen). repeat split; try done.
  eapply Forall_impl; [exact Hseen|]. simpl.
  intros v [Hv (o0 & Ho0 & Hle0)]. split; [done|].
  apply list_elem_of_lookup_1 in Ho0 as [j Hj].
  destruct (decide (j = o)) as [->|Hne].
  - exists new. split.
    + eapply list_elem_of_lookup_2, list_lookup_insert_eq. by eapply lookup_lt_Some.
    + assert (o0 = old) as -> by congruence. lia.
  - exists o0. split; [|done].
    eapply list_elem_of_lookup_2. by rewrite list_lookup_insert_ne.
Qed.

Lemma accepted_le (M : nat) (os : list goroutineIdService.owner)
    (w : worker goroutineIdService.point) :
  caller_ok M os w → (accepted w ≤ M)%nat.
Proof.
  intros (Hlen & Hnz & _). unfold accepted.
  destruct (pc w); [lia|]. assert (todo w ≠ 0%nat) by (by apply Hnz). lia.
Qed.

Lemma taken_Owner (p : goroutineIdService.owner_pc) (i : Z) :
  taken (goroutineIdService.Owner p i)
  = (Z.to_nat i + match p with goroutineIdService.Incrementing => 1 | _ => 0 end)%nat.
Proof. done. Qed.

Lemma accepted_Worker (d : nat) (p : goroutineIdService.point) (l : list Z) :
  accepted (Worker d p l)
  = (length l + match p with
                | goroutineIdService.AtRecv => 1
                | goroutineIdService.AtSend => 0
                end)%nat.
Proof. done. Qed.

Lemma owners_inv_init (sv : goroutineIdService.t) (N M : nat) :
  just_started sv → owners_inv M (goroutineIdService.init_with sv N M).
Proof.
  intros Hsv. unfold owners_inv. simpl. split; [|split].
  - assert (sum_list_with taken (goroutineIdService.owners sv) = 0%nat) as ->.
    { induction Hsv as [|o os -> _ IH]; [done|]. simpl. by rewrite IH. }
    unfold spawn. induction N as [|N IH]; [done|]. simpl. by rewrite <-IH.
  - eapply Forall_impl; [exact Hsv|]. intros o ->. split; simpl; [lia|done].
  - apply Forall_replicate. by repeat split.
Qed.

Lemma owners_inv_step (N M : nat) (a : goroutineIdService.action)
    (s s' : goroutineIdService.state) :
  Z.of_nat (N * M) < uint64_modulus →
  length (goroutineIdService.workers s) = N →
  owners_inv M s → goroutineIdService.step a s = Some s' → owners_inv M s'.
Proof.
  intros HB HN (Hsum & Hos & Hws). unfold goroutineIdService.step.
  destruct s as [[cl os] ws cr]; simpl in *.
  destruct cr; [done|].
  assert (sum_list_with accepted ws ≤ N * M)%nat as Hacc.
  { rewrite <-HN. apply sum_list_with_le.
    eapply Forall_impl; [exact Hws|]. apply accepted_le. }
  destruct a as [t o|o|].
  - (* a caller *)
    destruct (ws !! t) as [[[|n] p l]|] eqn:Hw; simpl; try done.
    pose proof (Forall_lookup_1 _ _ _ _ Hws Hw) as (Hlen & Hnz & Hseen).
    simpl in *. destruct p; simpl.
    + (* send the request *)
      destruct cl; [by intros [= <-]|].
      destruct (os !! o) as [[[| | |] i]|] eqn:Ho; try done.
      intros [= <-]. unfold owners_inv. simpl.
      pose proof (Forall_lookup_1 _ _ _ _ Hos Ho) as [Hi _]. simpl in Hi.
      pose proof (sum_list_with_insert taken os o _
                    (goroutineIdService.Owner goroutineIdService.Incrementing i) Ho) as H1.
      pose proof (sum_list_with_insert accepted ws t _
                    (Worker (S n) goroutineIdService.AtRecv l) Hw) as H2.
      rewrite !taken_Owner in H1. rewrite !accepted_Worker in H2. simpl in H1, H2.
      split; [lia|]. split.
      * apply Forall_insert; [done|]. split; simpl; [lia|done].
      * apply Forall_insert.
        -- eapply Forall_impl; [exact Hws|]. intros w0.
           by apply (caller_ok_update M os o _ _ w0 Ho).
        -- apply (caller_ok_update M os o _ _ _ Ho); [done|]. by repeat split.
    + (* receive the response *)
      destruct (os !! o) as [[[| | |] i]|] eqn:Ho; try done.
      intros [= <-]. unfold owners_inv. simpl.
      pose proof (Forall_lookup_1 _ _ _ _ Hos Ho) as [Hi Hone]. simpl in Hi, Hone.
      pose proof (sum_list_with_insert taken os o _
                    (goroutineIdService.Owner goroutineIdService.Listening i) Ho) as H1.
      pose proof (sum_list_with_insert accepted ws t _
                    (Worker n goroutineIdService.AtSend (l ++ [i])) Hw) as H2.
      rewrite !taken_Owner in H1. rewrite !accepted_Worker in H2. simpl in H1, H2.
      rewrite length_app in H2. simpl in H2.
      split; [lia|]. split.
      * apply Forall_insert; [done|]. split; simpl; [lia|done].
      * apply Forall_insert.
        -- eapply Forall_impl; [exact Hws|]. intros w0.
           by apply (caller_ok_update M os o _ _ w0 Ho).
        -- split; [|split]; simpl.
           ++ rewrite length_app. simpl. lia.
           ++ done.
           ++ apply Forall_app. split.
              ** destruct (caller_ok_update M os o _
                             (goroutineIdService.Owner goroutineIdService.Listening i)
                             (Worker (S n) goroutineIdService.AtRecv l) Ho)
                   as (_ & _ & H); [done|by repeat split|done].
              ** apply Forall_singleton. split; [by apply Hone|].
                 exists (goroutineIdService.Owner goroutineIdService.Listening i).
                 split; [|done].
                 eapply list_elem_of_lookup_2, list_lookup_insert_eq.
                 by eapply lookup_lt_Some.
  - (* an owner *)
    destruct (os !! o) as [[[| | |] i]|] eqn:Ho; unfold goroutineIdService.serve;
      simpl; try done.
    + (* it leaves its loop *)
      destruct cl; [|done]. intros [= <-]. unfold owners_inv. simpl.
      pose proof (Forall_lookup_1 _ _ _ _ Hos Ho) as [Hi _]. simpl in Hi.
      pose proof (sum_list_with_insert taken os o _
                    (goroutineIdService.Owner goroutineIdService.Stopped i) Ho) as H1.
      rewrite !taken_Owner in H1. simpl in H1.
      split; [lia|]. split.
      * apply Forall_insert; [done|]. split; simpl; [lia|done].
      * eapply Forall_impl; [exact Hws|]. intros w0.
        by apply (caller_ok_update M os o _ _ w0 Ho).
    + (* id++ *)
      intros [= <-]. unfold owners_inv. simpl.
      pose proof (Forall_lookup_1 _ _ _ _ Hos Ho) as [Hi _]. simpl in Hi.
      pose proof (sum_list_with_in _ taken os (list_elem_of_lookup_2 _ _ _ Ho)) as Hin.
      rewrite taken_Owner in Hin. simpl in Hin.
      assert (incr i = i + 1) as Hincr
        by (unfold incr, uint64; apply Z.mod_small; unfold uint64_modulus in *; lia).
      rewrite Hincr.
      pose proof (sum_list_with_insert taken os o _
                    (goroutineIdService.Owner goroutineIdService.Responding (i + 1)) Ho) as H1.
      rewrite !taken_Owner in H1. simpl in H1.
      split; [lia|]. split.
      * apply Forall_insert; [done|]. split; simpl; lia.
      * eapply Forall_impl; [exact Hws|]. intros w0.
        apply (caller_ok_update M os o _ _ w0 Ho). simpl. lia.
  - (* Stop *)
    unfold goroutineIdService.Stop. simpl. destruct cl; by intros [= <-].
Qed.

Lemma owners_inv_run (sv : goroutineIdService.t) (N M : nat)
    (sched : list goroutineIdService.action) :
  just_started sv →
  Z.of_nat (N * M) < uint64_modulus →
  length (goroutineIdService.workers
            (run goroutineIdService.step sched (goroutineIdService.init_with sv N M))) = N ∧
  owners_inv M (run goroutineIdService.step sched (goroutineIdService.init_with sv N M)).
Proof.
  intros Hsv HB.
  apply (run_invariant _ (λ s, length (goroutineIdService.workers s) = N ∧ owners_inv M s)).
  - intros a s s' [HN Hinv] Hstep. split; [|by eapply owners_inv_step].
    revert Hstep. unfold goroutineIdService.step.
    destruct a; repeat case_match; intros; simplify_eq; simpl;
      by rewrite ?length_insert.
  - split; [apply length_replicate|by apply owners_inv_init].
Qed.

(** Every id handed out is at most the number of requests taken so far. *)
Lemma owners_returned_bounds (M : nat) (s : goroutineIdService.state) (v : Z) :
  owners_inv M s →
  v ∈ returned (goroutineIdService.workers s) →
  1 ≤ v ≤ Z.of_nat (sum_list_with accepted (goroutineIdService.workers s)).
Proof.
  intros (Hsum & Hos & Hws) Hv.
  apply elem_of_returned in Hv as (w & Hw & Hv).
  destruct (proj1 (Forall_forall _ _) Hws w Hw) as (_ & _ & Hseen).
  destruct (proj1 (Forall_forall _ _) Hseen v Hv) as [H1 (o & Ho & Hle)].
  split; [done|]. rewrite <-Hsum.
  pose proof (sum_list_with_in _ taken _ Ho) as Hin. unfold taken in Hin at 1.
  destruct (proj1 (Forall_forall _ _) Hos o Ho) as [H0 _]. lia.
Qed.

(** X5. goroutineIdService on which [Start] has run any number of times:
    whatever the interleaving and whoever serves, every id returned lies
    between 1 and the number of calls the harness makes (N×M below 2^64). A
    second owner can duplicate ids, it cannot produce one that is too
    large. *)
Theorem goroutine_ids_bounded (sv : goroutineIdService.t) (N M : nat)
    (sched : list goroutineIdService.action) (v : Z) :
  just_started sv →
  Z.of_nat (N * M) < uint64_modulus →
  v ∈ returned (goroutineIdService.workers
                  (run goroutineIdService.step sched (goroutineIdService.init_with sv N M))) →
  1 ≤ v ≤ Z.of_nat (N * M).
Proof.
  intros Hsv HB Hv.
  destruct (owners_inv_run sv N M sched Hsv HB) as [HN Hinv].
  pose proof (owners_returned_bounds M _ v Hinv Hv) as Hb.
  destruct Hinv as (_ & _ & Hws).
  assert (sum_list_with accepted
            (goroutineIdService.workers
               (run goroutineIdService.step sched (goroutineIdService.init_with sv N M)))
          ≤ N * M)%nat as Hacc.
  { rewrite <-HN at 2. apply sum_list_with_le.
    eapply Forall_impl; [exact Hws|]. apply accepted_le. }
  lia.
Qed.

Lemma goroutine_ids_bounded_witness :
  1 ∈ returned
        (goroutineIdService.workers
           (run goroutineIdService.step
              [goroutineIdService.Call 0 0; goroutineIdService.Call 1 1;
               goroutineIdService.Serve 0; goroutineIdService.Serve 1;
               goroutineIdService.Call 0 0; goroutineIdService.Call 1 1]
              (goroutineIdService.init_with
                 (goroutineIdService.Start goroutineIdService.MakeGoroutineIdService)
                 2 1))) ∧
  1 ≤ 1 ≤ Z.of_nat (2 * 1).
Proof.
  split; [by left|].
  apply (goroutine_ids_bounded
           (goroutineIdService.Start goroutineIdService.MakeGoroutineIdService) 2 1
           [goroutineIdService.Call 0 0; goroutineIdService.Call 1 1;
            goroutineIdService.Serve 0; goroutineIdService.Serve 1;
            goroutineIdService.Call 0 0; goroutineIdService.Call 1 1] 1).
  - by repeat constructor.
  - reflexivity.
  - by left.
Defined.

Lemma sum_list_with_two {A} (f : A → nat) (l : list A) (i j : nat) (x y : A) :
  i ≠ j → l !! i = Some x → l !! j = Some y →
  (f x + f y ≤ sum_list_with f l)%nat.
Proof.
  revert i j. induction l as [|a l IH]; intros [|i] [|j] Hne Hi Hj;
    try done; simpl in *.
  - assert (a = x) as -> by congruence.
    pose proof (sum_list_with_in _ f l (list_elem_of_lookup_2 _ _ _ Hj)). lia.
  - assert (a = y) as -> by congruence.
    pose proof (sum_list_with_in _ f l (list_elem_of_lookup_2 _ _ _ Hi)). lia.
  - assert (i ≠ j) as Hne' by congruence. specialize (IH i j Hne' Hi Hj). lia.
Qed.

Lemma length_returned_calls {PC} (M : nat) (ws : list (worker PC)) :
  Forall (λ w, length (seen w) ≤ M)%nat ws →
  (length (returned ws) ≤ length ws * M)%nat.
Proof.
  induction 1 as [|w ws Hw _ IH]; [done|].
  rewrite returned_cons, length_app. simpl. lia.
Qed.

(** Two owners that have both served leave every id below the number of
    requests taken, and [RunService] fails. *)
Lemma two_served_verdict (N M : nat) (s : goroutineIdService.state) (o1 o2 : nat)
    (ow1 ow2 : goroutineIdService.owner) :
  Z.of_nat (N * M) ≤ int_max →
  length (goroutineIdService.workers s) = N →
  owners_inv M s →
  o1 ≠ o2 →
  goroutineIdService.owners (goroutineIdService.svc s) !! o1 = Some ow1 →
  goroutineIdService.owners (goroutineIdService.svc s) !! o2 = Some ow2 →
  1 ≤ goroutineIdService.oid ow1 →
  1 ≤ goroutineIdService.oid ow2 →
  ∃ m, m < Z.of_nat N * Z.of_nat M ∧
       RunService (observations (goroutineIdService.workers s)) (Z.of_nat N) (Z.of_nat M)
       = Failed (WrongMax (Z.of_nat N * Z.of_nat M) m).
Proof.
  intros HB HN (Hsum & Hos & Hws) Hne H1 H2 Hs1 Hs2.
  assert (sum_list_with accepted (goroutineIdService.workers s) ≤ N * M)%nat as Hacc.
  { rewrite <-HN. apply sum_list_with_le.
    eapply Forall_impl; [exact Hws|]. apply accepted_le. }
  pose proof (sum_list_with_two taken _ o1 o2 _ _ Hne H1 H2) as Htwo.
  assert (Z.to_nat (goroutineIdService.oid ow1) ≤ taken ow1)%nat by (unfold taken; lia).
  assert (Z.to_nat (goroutineIdService.oid ow2) ≤ taken ow2)%nat by (unfold taken; lia).
  assert (∀ v, v ∈ returned (goroutineIdService.workers s) →
               1 ≤ v < Z.of_nat (N * M)) as Hb.
  { intros v Hv. apply elem_of_returned in Hv as (w & Hw & Hv).
    destruct (proj1 (Forall_forall _ _) Hws w Hw) as (_ & _ & Hseen).
    destruct (proj1 (Forall_forall _ _) Hseen v Hv) as [Hv1 (o & Ho & Hle)].
    split; [done|].
    apply list_elem_of_lookup_1 in Ho as [j Hj].
    destruct (proj1 (Forall_forall _ _) Hos o (list_elem_of_lookup_2 _ _ _ Hj)) as [Hoid _].
    assert (Z.to_nat (goroutineIdService.oid o) ≤ taken o)%nat by (unfold taken; lia).
    destruct (decide (j = o1)) as [->|Hj1].
    - pose proof (sum_list_with_two taken _ o1 o2 _ _ Hne Hj H2). lia.
    - pose proof (sum_list_with_two taken _ j o1 _ _ Hj1 Hj H1). lia. }
  exists (max_id (returned (goroutineIdService.workers s))).
  assert (max_id (returned (goroutineIdService.workers s)) < Z.of_nat (N * M)) as Hmax.
  { destruct (max_id_in (returned (goroutineIdService.workers s))) as [->|Hin]; [lia|].
    by apply Hb. }
  rewrite <-Nat2Z.inj_mul. split; [done|].
  rewrite RunService_by_max; rewrite <-?Nat2Z.inj_mul.
  2:{ apply Forall_forall. intros l Hl. apply Forall_forall. intros x Hx.
      assert (x ∈ returned (goroutineIdService.workers s)) as Hin
        by (by eapply elem_of_concat_2).
      specialize (Hb x Hin). lia. }
  2: lia.
  2:{ fold (returned (goroutineIdService.workers s)).
      assert (length (returned (goroutineIdService.workers s)) ≤ N * M)%nat; [|lia].
      rewrite <-HN. apply length_returned_calls.
      eapply Forall_impl; [exact Hws|]. intros w (Hl & _). lia. }
  fold (returned (goroutineIdService.workers s)).
  assert (uint64 (Z.of_nat (N * M)) = Z.of_nat (N * M)) as ->
    by (apply Z.mod_small; unfold int_max, uint64_modulus in *; lia).
  destruct (Z.eqb_spec (max_id (returned (goroutineIdService.workers s)))
              (Z.of_nat (N * M))); [lia|done].
Qed.

(** X6. The double start, in general: on a service with several owners,
    once two different owners have each served a request, every completed
    run fails [RunService] with "Max id across workers incorrect" and a
    maximum below N×M ([numWorkers], [numCalls] and their product being
    [int]s). The harness passes such a service only when a single owner
    happened to serve every call. *)
Theorem two_owners_served_fails (sv : goroutineIdService.t) (N M : nat)
    (sched : list goroutineIdService.action) (o1 o2 : nat)
    (ow1 ow2 : goroutineIdService.owner) :
  just_started sv →
  in_int_range N M →
  all_done (goroutineIdService.workers
              (run goroutineIdService.step sched
                 (goroutineIdService.init_with sv N M))) = true →
  o1 ≠ o2 →
  goroutineIdService.owners
    (goroutineIdService.svc
       (run goroutineIdService.step sched (goroutineIdService.init_with sv N M))) !! o1
  = Some ow1 →
  goroutineIdService.owners
    (goroutineIdService.svc
       (run goroutineIdService.step sched (goroutineIdService.init_with sv N M))) !! o2
  = Some ow2 →
  1 ≤ goroutineIdService.oid ow1 →
  1 ≤ goroutineIdService.oid ow2 →
  ∃ m, m < Z.of_nat N * Z.of_nat M ∧
       RunService
         (observations
            (goroutineIdService.workers
               (run goroutineIdService.step sched
                  (goroutineIdService.init_with sv N M))))
         (Z.of_nat N) (Z.of_nat M)
       = Failed (WrongMax (Z.of_nat N * Z.of_nat M) m).
Proof.
  intros Hsv Hint Hdone Hne H1 H2 Hs1 Hs2.
  pose proof (in_int_range_uint64 N M Hint) as HB.
  destruct (owners_inv_run sv N M sched Hsv HB) as [HN Hinv].
  eapply two_served_verdict; [apply Hint|done..].
Qed.

Lemma two_owners_served_fails_witness :
  ∃ m, m < 2 * 1 ∧
       RunService
         (observations
            (goroutineIdService.workers
               (run goroutineIdService.step
                  [goroutineIdService.Call 0 0; goroutineIdService.Call 1 1;
                   goroutineIdService.Serve 0; goroutineIdService.Serve 1;
                   goroutineIdService.Call 0 0; goroutineIdService.Call 1 1]
                  (goroutineIdService.init_with
                     (goroutineIdService.Start goroutineIdService.MakeGoroutineIdService)
                     2 1))))
         2 1
       = Failed (WrongMax (2 * 1) m).
Proof.
  apply (two_owners_served_fails
           (goroutineIdService.Start goroutineIdService.MakeGoroutineIdService) 2 1
           [goroutineIdService.Call 0 0; goroutineIdService.Call 1 1;
            goroutineIdService.Serve 0; goroutineIdService.Serve 1;
            goroutineIdService.Call 0 0; goroutineIdService.Call 1 1]
           0 1
           (goroutineIdService.Owner goroutineIdService.Listening 1)
           (goroutineIdService.Owner goroutineIdService.Listening 1)).
  - by repeat constructor.
  - unfold in_int_range, int_max. simpl. lia.
  - reflexivity.
  - discriminate.
  - reflexivity.
  - reflexivity.
  - simpl. lia.
  - simpl. lia.
Defined.

(** ** Progress: the workers can always finish *)

Lemma all_done_false {PC} (ws : list (worker PC)) :
  all_done ws = false → ∃ t w n, ws !! t = Some w ∧ todo w = S n.
Proof.
  induction ws as [|w ws IH]; [done|]. simpl.
  destruct (todo w) as [|n] eqn:Hw; simpl.
  - intros (t & w' & n & Ht & Hn)%IH. by exists (S t), w', n.
  - intros _. by exists 0%nat, w, n.
Qed.

Lemma all_done_todos {PC} (ws : list (worker PC)) :
  all_done ws = forallb (λ d, Nat.eqb d 0) (todo <$> ws).
Proof. induction ws as [|w ws IH]; [done|]. simpl. by rewrite IH. Qed.

Section Finish.
Context {State Action PC : Type}.
Context (step : Action → State → option State) (wk : State → list (worker PC)).
Context (Q : State → Prop) (call : nat → list Action).
Hypothesis call_ok : ∀ s t w n,
  Q s → wk s !! t = Some w → todo w = S n →
  Q (run step (call t) s) ∧
  todo <$> wk (run step (call t) s) = <[t := n]> (todo <$> wk s).

(** From a state in which no call is in progress, the calls that remain can
    be made one after the other. *)
Lemma finish_all (s : State) :
  Q s → ∃ sched, Q (run step sched s) ∧ all_done (wk (run step sched s)) = true.
Proof.
  remember (sum_list (todo <$> wk s)) as k eqn:Hk. revert s Hk.
  induction k as [k IH] using lt_wf_ind. intros s Hk Hq.
  destruct (all_done (wk s)) eqn:Hdone; [by exists []|].
  apply all_done_false in Hdone as (t & w & n & Hw & Hn).
  destruct (call_ok s t w n Hq Hw Hn) as [Hq' Ht'].
  assert ((todo <$> wk s) !! t = Some (S n)) as Hl
    by (by rewrite list_lookup_fmap, Hw; simpl; rewrite Hn).
  pose proof (sum_list_with_insert id (todo <$> wk s) t (S n) n Hl) as Hsum.
  rewrite <-Ht' in Hsum. change (id (S n)) with (S n) in Hsum.
  change (id n) with n in Hsum.
  destruct (IH (sum_list (todo <$> wk (run step (call t) s)))) with (s := run step (call t) s)
    as (sched & Hq'' & Hdone); [lia|done|done|].
  exists (call t ++ sched). by rewrite run_app.
Qed.
End Finish.

Lemma finish_quiet (st : strategy) (s : sys_state (system_of st)) :
  quiet st s →
  ∃ sched, all_done (sys_workers (system_of st) (run (sys_step (system_of st)) sched s)) = true.
Proof.
  intros Hq.
  destruct (finish_all (sys_step (system_of st)) (sys_workers (system_of st))
              (quiet st) (call st)) with (s := s) as (sched & _ & Hdone); [|done|by exists sched].
  intros s0 t w n. apply call_quiet.
Qed.

(** mutex: whoever holds the lock can run to its [Unlock]. *)
Lemma mutex_reach_quiet (s : shared mutexIdService.t mutexIdService.point) :
  mutex_excl s → ∃ sched, quiet Mutex (run mutexIdService.step sched s).
Proof.
  unfold mutex_excl. destruct s as [[lk idv] ws]; simpl.
  destruct lk; [|by exists []].
  intros [t Hsole]. pose proof Hsole as [(w & Hw & Hnz & Hpc) _].
  pose proof (lookup_lt_Some _ _ _ Hw) as Hlt.
  destruct w as [[|n] p l]; simpl in *; [done|].
  destruct p as [| |tmp| |v]; [done|..].
  - exists [t; t; t; t].
    do 4 (erewrite run_cons_Some
          by (unfold mutexIdService.step, shared_step; lookup_worker Hw)).
    simpl. rewrite !list_insert_insert_eq. split; [done|]. by eapply sole_leave.
  - exists [t; t; t].
    do 3 (erewrite run_cons_Some
          by (unfold mutexIdService.step, shared_step; lookup_worker Hw)).
    simpl. rewrite !list_insert_insert_eq. split; [done|]. by eapply sole_leave.
  - exists [t; t].
    do 2 (erewrite run_cons_Some
          by (unfold mutexIdService.step, shared_step; lookup_worker Hw)).
    simpl. rewrite !list_insert_insert_eq. split; [done|]. by eapply sole_leave.
  - exists [t].
    erewrite run_cons_Some
      by (unfold mutexIdService.step, shared_step; lookup_worker Hw).
    simpl. split; [done|]. by eapply sole_leave.
Qed.

(** An owner leaves its loop only after [s.requests] has been closed. *)
Lemma stopped_after_close_step (a : goroutineIdService.action)
    (s s' : goroutineIdService.state) :
  (goroutineIdService.requests_closed (goroutineIdService.svc s) = false →
   Forall (λ o, goroutineIdService.opc o ≠ goroutineIdService.Stopped)
          (goroutineIdService.owners (goroutineIdService.svc s))) →
  goroutineIdService.step a s = Some s' →
  goroutineIdService.requests_closed (goroutineIdService.svc s') = false →
  Forall (λ o, goroutineIdService.opc o ≠ goroutineIdService.Stopped)
         (goroutineIdService.owners (goroutineIdService.svc s')).
Proof.
  intros Hs Hstep Hc'.
  assert (goroutineIdService.requests_closed (goroutineIdService.svc s) = false) as Hc.
  { destruct (goroutineIdService.requests_closed (goroutineIdService.svc s)) eqn:E; [|done].
    by rewrite (closed_step a s s' Hstep E) in Hc'. }
  specialize (Hs Hc). revert Hstep Hc'.
  unfold goroutineIdService.step, goroutineIdService.getNext, goroutineIdService.serve,
    goroutineIdService.Stop, goroutineIdService.set_owner.
  destruct a; repeat case_match; intros; simplify_eq; simpl in *; try done;
    try (apply Forall_insert; done); congruence.
Qed.

(** goroutines, one owner, not stopped: the outstanding call can complete. *)
Lemma goroutine_reach_quiet (N M : nat) (s : goroutineIdService.state) :
  goroutine_inv N M s →
  Forall (λ o, goroutineIdService.opc o ≠ goroutineIdService.Stopped)
         (goroutineIdService.owners (goroutineIdService.svc s)) →
  serving OwnerThread s →
  ∃ sched, quiet OwnerThread (run goroutineIdService.step sched s).
Proof.
  intros [HN (k & ow & Hown & Hlin & Hpc)] Hns [Hcr Hc].
  destruct s as [[cl os] ws cr]; simpl in *. subst os cl cr.
  apply Forall_inv in Hns.
  destruct ow as [[| | |] i]; simpl in *; [| | |done].
  - exists []. simpl. destruct Hpc as [_ Hall]. repeat split; eauto.
  - destruct Hpc as [_ [t Hsole]]. pose proof Hsole as [(w & Hw & Hnz & Hp) _].
    destruct w as [[|n] p l]; simpl in *; [done|]. subst p.
    exists [goroutineIdService.Serve 0; goroutineIdService.Call t 0].
    do 2 (erewrite run_cons_Some
          by (unfold goroutineIdService.step, goroutineIdService.getNext; lookup_worker Hw)).
    simpl. repeat split; eauto. by eapply sole_leave.
  - destruct Hpc as [_ [t Hsole]]. pose proof Hsole as [(w & Hw & Hnz & Hp) _].
    destruct w as [[|n] p l]; simpl in *; [done|]. subst p.
    exists [goroutineIdService.Call t 0].
    erewrite run_cons_Some
      by (unfold goroutineIdService.step, goroutineIdService.getNext; lookup_worker Hw).
    simpl. repeat split; eauto. by eapply sole_leave.
Qed.

(** X7. No deadlock: from every state that an execution of the atomic, the
    mutex or the (not stopped) owner-thread service can reach, the workers
    can still complete all their calls. A blocked [Lock] or a blocked channel
    operation is never blocked for good (N×M below 2^64). *)
Theorem can_always_finish (st : strategy) (N M : nat)
    (sched : list (sys_action (system_of st))) :
  synchronized st = true →
  Z.of_nat (N * M) < uint64_modulus →
  serving st (execute st N M sched) →
  ∃ sched', all_done (pool st N M (sched ++ sched')) = true.
Proof.
  intros Hst HB Hserv. unfold pool, execute.
  assert (∃ s1, quiet st (run (sys_step (system_of st)) s1 (execute st N M sched)))
    as [s1 Hq].
  { destruct st; [done| | |].
    - by exists [].
    - apply mutex_reach_quiet, mutex_excl_run.
    - apply (goroutine_reach_quiet N M); [by apply (strategy_inv_run OwnerThread)| |done].
      destruct Hserv as [_ Hc]. revert Hc. unfold execute.
      apply (run_invariant goroutineIdService.step
               (λ s, goroutineIdService.requests_closed (goroutineIdService.svc s) = false →
                     Forall (λ o, goroutineIdService.opc o ≠ goroutineIdService.Stopped)
                            (goroutineIdService.owners (goroutineIdService.svc s)))).
      + intros a s s'. apply stopped_after_close_step.
      + intros _. by repeat constructor. }
  destruct (finish_quiet st _ Hq) as [s2 Hdone].
  exists (s1 ++ s2). unfold execute in Hdone. by rewrite !run_app.
Qed.

Lemma can_always_finish_witness :
  (∃ sched', all_done (pool Mutex 2 2 ([0; 1; 0]%nat ++ sched')) = true) ∧
  (∃ sched', all_done (pool OwnerThread 2 2
                         ([goroutineIdService.Call 0 0; goroutineIdService.Call 1 0]
                          ++ sched')) = true).
Proof.
  split.
  - apply (can_always_finish Mutex 2 2 [0; 1; 0]%nat); reflexivity.
  - apply (can_always_finish OwnerThread 2 2
             [goroutineIdService.Call 0 0; goroutineIdService.Call 1 0]);
      [reflexivity|reflexivity|by split].
Defined.

(** ** Every call returns, and what it returns grows *)

(** From every state a synchronised service reaches while it is serving,
    the calls in progress can be completed. *)
Lemma serving_reach_quiet (st : strategy) (N M : nat)
    (sched : list (sys_action (system_of st))) :
  synchronized st = true →
  Z.of_nat (N * M) < uint64_modulus →
  serving st (execute st N M sched) →
  ∃ sched', quiet st (run (sys_step (system_of st)) sched' (execute st N M sched)).
Proof.
  intros Hst HB Hserv. destruct st; [done| | |].
  - by exists [].
  - apply mutex_reach_quiet, mutex_excl_run.
  - apply (goroutine_reach_quiet N M); [by apply (strategy_inv_run OwnerThread)| |done].
    destruct Hserv as [_ Hc]. revert Hc. unfold execute.
    apply (run_invariant goroutineIdService.step
             (λ s, goroutineIdService.requests_closed (goroutineIdService.svc s) = false →
                   Forall (λ o, goroutineIdService.opc o ≠ goroutineIdService.Stopped)
                          (goroutineIdService.owners (goroutineIdService.svc s)))).
    + intros a s s'. apply stopped_after_close_step.
    + intros _. by repeat constructor.
Qed.

(** C8. Atomic, mutex and owner-thread strategies, N workers with M calls
    each (N×M below 2^64). In every state of every interleaving, a worker
    holds one value for each call it has completed, and these values are
    strictly increasing in call order, whatever the other workers do in
    between. And the calls do return: from every state reached while the
    service is serving (for the owner-thread strategy: not stopped), the
    execution can be continued until every worker has completed its M
    calls. *)
Theorem worker_ids_strictly_increasing (st : strategy) (N M : nat)
    (sched : list (sys_action (system_of st))) :
  synchronized st = true →
  Z.of_nat (N * M) < uint64_modulus →
  (∀ (t : nat) (w : worker (sys_pc (system_of st))),
     pool st N M sched !! t = Some w →
     (length (seen w) + todo w = M)%nat ∧
     ∀ (i j : nat) (x y : Z),
       (i < j)%nat → seen w !! i = Some x → seen w !! j = Some y → x < y) ∧
  (serving st (execute st N M sched) →
   ∃ sched', all_done (pool st N M (sched ++ sched')) = true).
Proof.
  intros Hst HB. split.
  - intros t w Hw.
    destruct (synchronized_linearised st N M sched Hst HB) as [_ [k [_ Hwf]]].
    destruct (Forall_lookup_1 _ _ _ _ Hwf Hw) as [Hinc Hlen].
    split; [done|]. intros i j x y Hij Hx Hy. by eapply increasing_lookup.
  - intros Hserv.
    destruct (serving_reach_quiet st N M sched Hst HB Hserv) as [s1 Hq].
    destruct (finish_quiet st _ Hq) as [s2 Hdone].
    exists (s1 ++ s2). unfold pool, execute in *. by rewrite !run_app.
Qed.

(** Two workers with two calls each, stopped in the middle of the run, for
    each of the three strategies. *)
Lemma worker_ids_strictly_increasing_witness :
  (pool Atomic 2 2 [0; 1; 0]%nat = [Worker 0 tt [1; 3]; Worker 1 tt [2]] ∧
   (∀ (t : nat) (w : worker unit),
      pool Atomic 2 2 [0; 1; 0]%nat !! t = Some w →
      (length (seen w) + todo w = 2)%nat ∧
      ∀ (i j : nat) (x y : Z),
        (i < j)%nat → seen w !! i = Some x → seen w !! j = Some y → x < y) ∧
   ∃ sched', all_done (pool Atomic 2 2 ([0; 1; 0]%nat ++ sched')) = true) ∧
  (pool Mutex 2 2 [0; 1; 0; 0; 0; 0; 1; 1; 1; 1; 1; 1; 1; 1; 1; 1; 0]%nat
   = [Worker 1 mutexIdService.AtLoad [1]; Worker 0 mutexIdService.AtLock [2; 3]] ∧
   (∀ (t : nat) (w : worker mutexIdService.point),
      pool Mutex 2 2 [0; 1; 0; 0; 0; 0; 1; 1; 1; 1; 1; 1; 1; 1; 1; 1; 0]%nat !! t
      = Some w →
      (length (seen w) + todo w = 2)%nat ∧
      ∀ (i j : nat) (x y : Z),
        (i < j)%nat → seen w !! i = Some x → seen w !! j = Some y → x < y) ∧
   ∃ sched', all_done
               (pool Mutex 2 2
                  ([0; 1; 0; 0; 0; 0; 1; 1; 1; 1; 1; 1; 1; 1; 1; 1; 0]%nat ++ sched'))
             = true) ∧
  (pool OwnerThread 2 2
     [goroutineIdService.Call 0 0; goroutineIdService.Serve 0;
      goroutineIdService.Call 0 0; goroutineIdService.Call 1 0;
      goroutineIdService.Serve 0; goroutineIdService.Call 1 0;
      goroutineIdService.Call 0 0]
   = [Worker 1 goroutineIdService.AtRecv [1]; Worker 1 goroutineIdService.AtSend [2]] ∧
   (∀ (t : nat) (w : worker goroutineIdService.point),
      pool OwnerThread 2 2
        [goroutineIdService.Call 0 0; goroutineIdService.Serve 0;
         goroutineIdService.Call 0 0; goroutineIdService.Call 1 0;
         goroutineIdService.Serve 0; goroutineIdService.Call 1 0;
         goroutineIdService.Call 0 0] !! t = Some w →
      (length (seen w) + todo w = 2)%nat ∧
      ∀ (i j : nat) (x y : Z),
        (i < j)%nat → seen w !! i = Some x → seen w !! j = Some y → x < y) ∧
   ∃ sched', all_done
               (pool OwnerThread 2 2
                  ([goroutineIdService.Call 0 0; goroutineIdService.Serve 0;
                    goroutineIdService.Call 0 0; goroutineIdService.Call 1 0;
                    goroutineIdService.Serve 0; goroutineIdService.Call 1 0;
                    goroutineIdService.Call 0 0] ++ sched'))
             = true).
Proof.
  split; [|split].
  - split; [reflexivity|].
    destruct (worker_ids_strictly_increasing Atomic 2 2 [0; 1; 0]%nat)
      as [Hsafe Hlive]; [reflexivity|reflexivity|].
    split; [exact Hsafe|]. apply Hlive. exact I.
  - split; [reflexivity|].
    destruct (worker_ids_strictly_increasing Mutex 2 2
                [0; 1; 0; 0; 0; 0; 1; 1; 1; 1; 1; 1; 1; 1; 1; 1; 0]%nat)
      as [Hsafe Hlive]; [reflexivity|reflexivity|].
    split; [exact Hsafe|]. apply Hlive. exact I.
  - split; [reflexivity|].
    destruct (worker_ids_strictly_increasing OwnerThread 2 2
                [goroutineIdService.Call 0 0; goroutineIdService.Serve 0;
                 goroutineIdService.Call 0 0; goroutineIdService.Call 1 0;
                 goroutineIdService.Serve 0; goroutineIdService.Call 1 0;
                 goroutineIdService.Call 0 0])
      as [Hsafe Hlive]; [reflexivity|reflexivity|].
    split; [exact Hsafe|]. apply Hlive. split; reflexivity.
Defined.

(** ** The goroutines test case of [setup] *)

(** An undisturbed call served by owner 0, whatever other owners exist. *)
Lemma goroutine_call_first_owner (i : Z) (rest : list goroutineIdService.owner)
    (ws : list (worker goroutineIdService.point)) (t n : nat) (l : list Z) :
  ws !! t = Some (Worker (S n) goroutineIdService.AtSend l) →
  run goroutineIdService.step (call OwnerThread t)
    (goroutineIdService.State
       (goroutineIdService.Make false
          (goroutineIdService.Owner goroutineIdService.Listening i :: rest)) ws None)
  = goroutineIdService.State
      (goroutineIdService.Make false
         (goroutineIdService.Owner goroutineIdService.Listening (incr i) :: rest))
      (<[t := Worker n goroutineIdService.AtSend (l ++ [incr i])]> ws) None.
Proof.
  intros Hw. pose proof (lookup_lt_Some _ _ _ Hw) as Hlt. unfold call.
  do 3 (erewrite run_cons_Some
          by (unfold goroutineIdService.step, goroutineIdService.getNext; lookup_worker Hw)).
  simpl. by rewrite !list_insert_insert_eq.
Qed.

Lemma call_quiet_first_owner (rest : list goroutineIdService.owner)
    (s : goroutineIdService.state) (t : nat) (w : worker goroutineIdService.point)
    (n : nat) :
  quiet_first_owner rest s →
  goroutineIdService.workers s !! t = Some w → todo w = S n →
  quiet_first_owner rest (run goroutineIdService.step (call OwnerThread t) s) ∧
  todo <$> goroutineIdService.workers (run goroutineIdService.step (call OwnerThread t) s)
  = <[t := n]> (todo <$> goroutineIdService.workers s).
Proof.
  destruct s as [[cl os] ws cr]. unfold quiet_first_owner.
  cbn [goroutineIdService.workers goroutineIdService.svc goroutineIdService.crashed
       goroutineIdService.requests_closed goroutineIdService.owners].
  intros (-> & -> & [i ->] & Hq) Hw Ht.
  pose proof (Forall_lookup_1 _ _ _ _ Hq Hw) as Hpc.
  destruct w as [d p l]; simpl in Ht, Hpc; subst d p.
  rewrite (goroutine_call_first_owner _ _ _ _ _ _ Hw).
  cbn [goroutineIdService.workers goroutineIdService.svc goroutineIdService.crashed
       goroutineIdService.requests_closed goroutineIdService.owners].
  split; [|by rewrite list_fmap_insert].
  split; [done|]. split; [done|]. split; [by eexists|]. by apply Forall_insert.
Qed.

Lemma accepted_all_done (M : nat) (os : list goroutineIdService.owner)
    (ws : list (worker goroutineIdService.point)) :
  Forall (caller_ok M os) ws → all_done ws = true →
  sum_list_with accepted ws = (length ws * M)%nat.
Proof.
  induction 1 as [|w ws (Hlen & Hnz & _) _ IH]; [done|]. simpl.
  intros [Hd Hds]%andb_prop. apply Nat.eqb_eq in Hd.
  rewrite IH by done. unfold accepted.
  destruct (pc w); [lia|]. by destruct Hnz.
Qed.

(** X8. The goroutines test case as [setup] builds it (constructor, then a
    second [Start]): for every run of at least two calls, [TestServices]'
    10 × 10000 among them, there is an execution that completes and that
    [RunService] fails with "Max id across workers incorrect"
    ([numWorkers], [numCalls] and their product being [int]s). *)
Theorem setup_goroutines_can_fail (N M : nat) :
  (2 ≤ N * M)%nat →
  in_int_range N M →
  ∃ (sched : list goroutineIdService.action) (m : Z),
    all_done (goroutineIdService.workers
                (run goroutineIdService.step sched
                   (goroutineIdService.init_with setup_goroutines N M))) = true ∧
    m < Z.of_nat N * Z.of_nat M ∧
    RunService
      (observations
         (goroutineIdService.workers
            (run goroutineIdService.step sched
               (goroutineIdService.init_with setup_goroutines N M))))
      (Z.of_nat N) (Z.of_nat M)
    = Failed (WrongMax (Z.of_nat N * Z.of_nat M) m).
Proof.
  intros H2 Hint. pose proof (in_int_range_uint64 N M Hint) as HB.
  destruct Hint as (_ & _ & Hint).
  destruct N as [|N']; [lia|]. destruct M as [|M']; [lia|].
  set (first := [goroutineIdService.Call 0 1; goroutineIdService.Serve 1;
                 goroutineIdService.Call 0 1]).
  assert (quiet_first_owner [goroutineIdService.Owner goroutineIdService.Listening 1]
            (run goroutineIdService.step first
               (goroutineIdService.init_with setup_goroutines (S N') (S M')))) as Hq.
  { unfold quiet_first_owner. simpl. repeat split; eauto.
    constructor; [done|]. by apply Forall_replicate. }
  destruct (finish_all goroutineIdService.step goroutineIdService.workers
              (quiet_first_owner [goroutineIdService.Owner goroutineIdService.Listening 1])
              (call OwnerThread)
              (call_quiet_first_owner _) _ Hq) as (rest & Hq' & Hdone).
  rewrite <-run_app in Hq', Hdone.
  destruct (owners_inv_run setup_goroutines (S N') (S M') (first ++ rest))
    as [HN Hinv]; [by repeat constructor|done|].
  destruct Hq' as (_ & _ & [i Hos] & _).
  assert (1 ≤ i) as Hi.
  { pose proof Hinv as (Hsum & Hown & Hws).
    rewrite (accepted_all_done _ _ _ Hws Hdone), HN, Hos in Hsum.
    rewrite Hos in Hown. apply Forall_inv in Hown as [Hi0 _].
    rewrite !sum_list_with_foldr in Hsum. cbn [foldr] in Hsum.
    rewrite !taken_Owner in Hsum. cbn [goroutineIdService.oid] in Hi0. lia. }
  destruct (two_served_verdict (S N') (S M') _ 0 1
              (goroutineIdService.Owner goroutineIdService.Listening i)
              (goroutineIdService.Owner goroutineIdService.Listening 1)
              Hint HN Hinv) as (m & Hm & Hfail);
    [done|by rewrite Hos|by rewrite Hos|done|simpl; lia|].
  by exists (first ++ rest), m.
Qed.

Lemma setup_goroutines_can_fail_witness :
  ∃ (sched : list goroutineIdService.action) (m : Z),
    all_done (goroutineIdService.workers
                (run goroutineIdService.step sched
                   (goroutineIdService.init_with setup_goroutines 2 3))) = true ∧
    m < 2 * 3 ∧
    RunService
      (observations
         (goroutineIdService.workers
            (run goroutineIdService.step sched
               (goroutineIdService.init_with setup_goroutines 2 3))))
      2 3
    = Failed (WrongMax (2 * 3) m).
Proof.
  apply (setup_goroutines_can_fail 2 3);
    [lia|unfold in_int_range, int_max; simpl; lia].
Defined.

(** ** What the validator decides *)

Lemma RunService_passes_synchronized_witness :
  RunService (observations (pool Mutex 2 2
                [0; 1; 0; 0; 0; 0; 1; 1; 1; 1; 1; 1; 1; 1; 1; 1; 0; 0; 0; 0; 0]%nat))
             (Z.of_nat 2) (Z.of_nat 2) = Passed.
Proof.
  apply (RunService_passes_synchronized Mutex 2 2
           [0; 1; 0; 0; 0; 0; 1; 1; 1; 1; 1; 1; 1; 1; 1; 1; 0; 0; 0; 0; 0]%nat);
    [reflexivity|unfold in_int_range, int_max; simpl; lia|reflexivity].
Defined.

(** X9. On ids that are [uint64] values [RunService] never fails with
    "Ids not monotonically increasing". With [expectedMax] the [int] that
    [numWorkers * numCalls] wraps to: it panics in [make] when [expectedMax]
    is negative; it never returns when the workers have more ids to send
    than [expectedMax]; otherwise it passes when the maximum of the ids (0
    for none) equals [uint64(expectedMax)], and fails with "Max id across
    workers incorrect", the expected and the observed maximum when it does
    not. *)
Theorem RunService_verdict_by_max (obs : list (list Z)) (numWorkers numCalls : Z) :
  Forall (Forall (λ id, 0 ≤ id)) obs →
  RunService obs numWorkers numCalls
  = if int (numWorkers * numCalls) <? 0 then SizeOutOfRange
    else if int (numWorkers * numCalls) <? Z.of_nat (length (concat obs))
    then Blocked
    else if max_id (concat obs) =? uint64 (int (numWorkers * numCalls))
    then Passed
    else Failed (WrongMax (int (numWorkers * numCalls)) (max_id (concat obs))).
Proof.
  intros Hobs. unfold RunService. cbv zeta.
  by rewrite (sent_all obs Hobs), (wait_all_nil obs Hobs).
Qed.

(** A maximum that is too low; a negative number of workers; a product
    that wraps to a negative [int]. In the last two no worker is started. *)
Lemma RunService_verdict_by_max_witness :
  RunService [[3; 1]; [2; 2]] 2 2 = Failed (WrongMax 4 3) ∧
  RunService [] (-1) 1 = SizeOutOfRange ∧
  RunService [] (2 ^ 32) (2 ^ 31) = SizeOutOfRange.
Proof.
  split; [|split].
  - rewrite (RunService_verdict_by_max [[3; 1]; [2; 2]] 2 2); [reflexivity|].
    repeat constructor; lia.
  - rewrite (RunService_verdict_by_max [] (-1) 1); [reflexivity|].
    constructor.
  - rewrite (RunService_verdict_by_max [] (2 ^ 32) (2 ^ 31)); [reflexivity|].
    constructor.
Defined.

(** X10. The verdict of [RunService] depends only on the multiset of ids
    sent to [idChan]: neither which worker sent an id nor the order in which
    the ids arrived matters. *)
Theorem RunService_order_independent (obs obs' : list (list Z)) (numWorkers numCalls : Z) :
  Forall (Forall (λ id, 0 ≤ id)) obs →
  Forall (Forall (λ id, 0 ≤ id)) obs' →
  concat obs ≡ₚ concat obs' →
  RunService obs numWorkers numCalls = RunService obs' numWorkers numCalls.
Proof.
  intros Hobs Hobs' Hp. unfold RunService. cbv zeta.
  rewrite (sent_all obs Hobs), (sent_all obs' Hobs').
  by rewrite (wait_all_nil obs Hobs), (wait_all_nil obs' Hobs'),
    (max_id_perm _ _ Hp), (Permutation_length Hp).
Qed.

Lemma RunService_order_independent_witness :
  RunService [[1; 4]; [2; 3]] 2 2 = RunService [[3; 2; 1]; [4]] 2 2.
Proof.
  apply (RunService_order_independent [[1; 4]; [2; 3]] [[3; 2; 1]; [4]] 2 2).
  - repeat constructor; lia.
  - repeat constructor; lia.
  - simpl. apply (NoDup_Permutation [1; 4; 2; 3] [3; 2; 1; 4]).
    + repeat (constructor; [rewrite ?elem_of_cons, elem_of_nil; intros H; intuition lia|]).
      constructor.
    + repeat (constructor; [rewrite ?elem_of_cons, elem_of_nil; intros H; intuition lia|]).
      constructor.
    + intros x. rewrite !elem_of_cons, !elem_of_nil. intuition lia.
Defined.

(** X11. The loop over [idChan] computes the maximum of the ids and 0: its
    result is at least every id, it is never negative, and it is one of the
    ids unless it is 0. *)
Theorem max_id_is_maximum (idChan : list Z) :
  (∀ id, id ∈ idChan → id ≤ max_id idChan) ∧
  0 ≤ max_id idChan ∧
  (max_id idChan = 0 ∨ max_id idChan ∈ idChan).
Proof.
  split; [apply max_id_ub|]. split; [|apply max_id_in].
  rewrite max_id_foldr. induction idChan as [|x l IH]; simpl; lia.
Qed.

(** * The byte-code machine *)

(** ** What one instruction changes *)

Lemma switch_step_memory (memory registers memory' registers' : list Z) :
  vm_switch.step memory registers = vm.Ok (vm.Continue memory' registers') →
  memory' = memory ∨ ∃ addr v, memory' = <[addr := v]> memory.
Proof.
  unfold vm_switch.step. intros H. vm_cases; eauto.
Qed.

Lemma table_step_memory (memory registers memory' registers' : list Z) :
  vm_table.step memory registers = vm.Ok (vm.Continue memory' registers') →
  memory' = memory ∨
  ∃ addr v, (addr ≤ 7)%nat ∧ memory' = <[addr := v]> memory.
Proof.
  unfold vm_table.step, vm_table.instructions. intros H. vm_cases.
  all: unfold vm_table.load, vm_table.store, vm_table.add, vm_table.sub,
    vm_table.addi, vm_table.subi, vm_table.jump, vm_table.beqz in *.
  all: vm_cases; eauto.
  right. eexists _, _. split; [|done]. lia.
Qed.

Lemma switch_loop_length (fuel : nat) (memory registers : list Z) :
  length (outcome_memory (vm.loop vm_switch.step fuel memory registers)) =
  length memory.
Proof.
  revert memory registers.
  induction fuel as [|fuel IH]; intros memory registers; [done|].
  cbn [vm.loop].
  destruct (vm_switch.step memory registers)
    as [[memory' registers'|]|] eqn:Hstep; [|done..].
  rewrite IH.
  destruct (switch_step_memory _ _ _ _ Hstep) as [->|(addr & v & ->)];
    by rewrite ?length_insert.
Qed.

Lemma table_loop_memory (fuel : nat) (memory registers : list Z) :
  length (outcome_memory (vm.loop vm_table.step fuel memory registers)) =
    length memory ∧
  ∀ i, (8 ≤ i)%nat →
    outcome_memory (vm.loop vm_table.step fuel memory registers) !! i =
    memory !! i.
Proof.
  revert memory registers.
  induction fuel as [|fuel IH]; intros memory registers; [done|].
  cbn [vm.loop].
  destruct (vm_table.step memory registers)
    as [[memory' registers'|]|] eqn:Hstep; [|done..].
  destruct (IH memory' registers') as [-> IHi].
  destruct (table_step_memory _ _ _ _ Hstep) as [->|(addr & v & ? & ->)];
    [done|].
  rewrite length_insert. split; [done|]. intros i Hi.
  rewrite IHi by done. apply list_lookup_insert_ne. lia.
Qed.

(** ** Where the two machines agree *)

Lemma byte_offset (pc offset : Z) :
  vm.byte (vm.byte (pc + 3) + offset) = vm.byte (vm.byte (pc + offset) + 3).
Proof.
  unfold vm.byte. rewrite !Zplus_mod_idemp_l. f_equal. lia.
Qed.

Lemma step_agree (memory registers : list Z) :
  tame_instruction memory registers = true →
  vm_switch.step memory registers = vm_table.step memory registers.
Proof.
  unfold tame_instruction, vm_switch.step, vm_table.step, vm_table.instructions.
  unfold mbind, vm.res_bind, vm.index. change (Z.to_nat 0) with 0%nat.
  destruct (registers !! 0%nat) as [pc|] eqn:Hpc; [|done].
  destruct (memory !! Z.to_nat pc) as [op|] eqn:Hop; [|done].
  assert (0 < length registers)%nat as Hlen by (by eapply lookup_lt_Some).
  unfold vm.decode, vm.Load, vm.Store, vm.Add, vm.Sub, vm.Addi, vm.Subi,
    vm.Jump, vm.Beqz, vm.Halt.
  repeat case_decide; try lia; try done; subst op.
  all: unfold vm_table.load, vm_table.store, vm_table.add, vm_table.sub,
    vm_table.addi, vm_table.subi, vm_table.jump, vm_table.beqz, mbind,
    vm.res_bind, vm.index, vm.assign; cbn [default].
  all: change (Z.to_nat 0) with 0%nat.
  all: destruct (memory !! Z.to_nat (vm.byte (pc + 1))) as [a|] eqn:Ha;
    cbn [default].
  all: destruct (memory !! Z.to_nat (vm.byte (pc + 2))) as [b|] eqn:Hb;
    cbn [default].
  all: rewrite ?andb_true_iff, ?Z.ltb_lt, ?Z.leb_le; unfold id; intros Ht.
  all: rewrite ?length_insert, ?list_lookup_insert_ne by lia.
  all: repeat (first [case_decide | case_match]; simplify_eq/=;
               rewrite ?length_insert, ?list_lookup_insert_eq in * by lia;
               rewrite ?list_lookup_insert_ne by lia);
    try lia; try done.
  all: rewrite ?list_insert_insert_eq, ?byte_offset; try done.
  all: do 2 f_equal; apply list_insert_insert_ne; lia.
Qed.

Lemma loop_agree (fuel : nat) (memory registers : list Z) :
  tame fuel memory registers = true →
  vm.loop vm_switch.step fuel memory registers =
  vm.loop vm_table.step fuel memory registers.
Proof.
  revert memory registers.
  induction fuel as [|fuel IH]; intros memory registers; [done|].
  cbn [tame vm.loop]. rewrite andb_true_iff. intros [Hi Ht].
  rewrite (step_agree _ _ Hi).
  destruct (vm_table.step memory registers) as [[memory' registers'|]|]; auto.
Qed.

(** X13. Neither [compute] changes the length of the memory slice, however
    the run ends and whatever the program does. *)
Theorem compute_keeps_length (fuel : nat) (memory : list Z) :
  length (outcome_memory (vm_switch.compute fuel memory)) = length memory ∧
  length (outcome_memory (vm_table.compute fuel memory)) = length memory.
Proof.
  split; [apply switch_loop_length|].
  unfold vm_table.compute. case_decide; [done|].
  apply table_loop_memory.
Qed.

(** X14. The [compute] with the function table never changes a byte at
    address 8 or above: the program it runs stays as it was loaded. *)
Theorem table_code_read_only (fuel : nat) (memory : list Z) (i : nat) :
  (8 ≤ i)%nat →
  outcome_memory (vm_table.compute fuel memory) !! i = memory !! i.
Proof.
  intros Hi. unfold vm_table.compute. case_decide; [done|].
  by apply table_loop_memory.
Qed.

Lemma table_code_read_only_witness :
  outcome_memory
    (vm_table.compute 10
       [20; 22; 0; 0; 0; 0; 0; 0; 1; 1; 0; 1; 2; 1; 3; 1; 2; 2; 1; 0; 255])
    !! 17%nat =
  [20; 22; 0; 0; 0; 0; 0; 0; 1; 1; 0; 1; 2; 1; 3; 1; 2; 2; 1; 0; 255]
    !! 17%nat.
Proof.
  apply (table_code_read_only 10
    [20; 22; 0; 0; 0; 0; 0; 0; 1; 1; 0; 1; 2; 1; 3; 1; 2; 2; 1; 0; 255] 17).
  lia.
Defined.

(** X15. On memory of at most 256 bytes the two [compute] functions end the
    same way with the same memory, as long as every instruction executed has
    a known opcode, names no register operand 0 (the program counter) and,
    for [Store], an address of at most 7. *)
Theorem switch_table_agree (fuel : nat) (memory : list Z) :
  (length memory ≤ 256)%nat →
  tame fuel memory vm.registers0 = true →
  vm_switch.compute fuel memory = vm_table.compute fuel memory.
Proof.
  intros Hlen Ht. unfold vm_switch.compute, vm_table.compute.
  case_decide; [lia|]. by apply loop_agree.
Qed.

Lemma switch_table_agree_witness :
  vm_switch.compute 10
    [20; 22; 0; 0; 0; 0; 0; 0; 1; 1; 0; 1; 2; 1; 3; 1; 2; 2; 1; 0; 255] =
  vm_table.compute 10
    [20; 22; 0; 0; 0; 0; 0; 0; 1; 1; 0; 1; 2; 1; 3; 1; 2; 2; 1; 0; 255].
Proof.
  apply (switch_table_agree 10
    [20; 22; 0; 0; 0; 0; 0; 0; 1; 1; 0; 1; 2; 1; 3; 1; 2; 2; 1; 0; 255]).
  - simpl. lia.
  - vm_compute. reflexivity.
Defined.

(** X16. A memory slice of at most 8 bytes has no room for a program: both
    [compute] functions panic on the first read, at index 8, and leave the
    memory as it was. *)
Theorem compute_without_code_panics (fuel : nat) (memory : list Z) :
  (length memory ≤ 8)%nat →
  vm_switch.compute (S fuel) memory =
    vm.Panicked vm.IndexOutOfRange memory ∧
  vm_table.compute (S fuel) memory =
    vm.Panicked vm.IndexOutOfRange memory.
Proof.
  intros Hlen.
  assert (memory !! 8%nat = None) as Hnone by (apply lookup_ge_None; lia).
  unfold vm_switch.compute, vm_table.compute. case_decide; [lia|].
  cbn [vm.loop]. unfold vm_switch.step, vm_table.step, vm.registers0.
  unfold mbind, vm.res_bind, vm.index. simpl.
  change (Z.to_nat 8) with 8%nat. by rewrite Hnone.
Qed.

Lemma compute_without_code_panics_witness :
  vm_switch.compute 1 [1; 2; 3] = vm.Panicked vm.IndexOutOfRange [1; 2; 3] ∧
  vm_table.compute 1 [1; 2; 3] = vm.Panicked vm.IndexOutOfRange [1; 2; 3].
Proof.
  apply (compute_without_code_panics 0 [1; 2; 3]). simpl. lia.
Defined.

(** X17. When the program counter reaches a byte that is no opcode, the
    [switch] machine panics with "Unknown opcode" and names the byte; the
    table machine panics on the call of a nil function for byte 0 and on an
    index out of range of the table for every other such byte. Both leave
    the memory as the instructions before left it. *)
Theorem unknown_opcode_panics (fuel : nat) (memory registers : list Z)
    (pc op : Z) :
  registers !! 0%nat = Some pc →
  memory !! Z.to_nat pc = Some op →
  vm.decode op = None →
  0 ≤ op →
  vm.loop vm_switch.step (S fuel) memory registers =
    vm.Panicked (vm.UnknownOpcode op) memory ∧
  vm.loop vm_table.step (S fuel) memory registers =
    vm.Panicked (if decide (op = 0) then vm.NilFunction
                 else vm.IndexOutOfRange) memory.
Proof.
  intros Hpc Hop Hdec Hpos. cbn [vm.loop].
  unfold vm_switch.step, vm_table.step, vm_table.instructions.
  unfold mbind, vm.res_bind, vm.index. change (Z.to_nat 0) with 0%nat.
  rewrite Hpc, Hop, Hdec. split; [done|].
  revert Hdec. unfold vm.decode, vm.Load, vm.Store, vm.Add, vm.Sub, vm.Addi,
    vm.Subi, vm.Jump, vm.Beqz, vm.Halt.
  repeat case_decide; try done; lia.
Qed.

Lemma unknown_opcode_panics_witness :
  vm.loop vm_switch.step 1 [0; 0; 0; 0; 0; 0; 0; 0; 9] vm.registers0 =
    vm.Panicked (vm.UnknownOpcode 9) [0; 0; 0; 0; 0; 0; 0; 0; 9] ∧
  vm.loop vm_table.step 1 [0; 0; 0; 0; 0; 0; 0; 0; 9] vm.registers0 =
    vm.Panicked (if decide (9 = 0) then vm.NilFunction
                 else vm.IndexOutOfRange) [0; 0; 0; 0; 0; 0; 0; 0; 9].
Proof.
  apply (unknown_opcode_panics 0 [0; 0; 0; 0; 0; 0; 0; 0; 9] vm.registers0
           8 9).
  - reflexivity.
  - reflexivity.
  - reflexivity.
  - lia.
Defined.

(** * sum_to_n.asm *)

Lemma sum_upto_gauss (k : nat) :
  2 * sum_upto k = Z.of_nat k * (Z.of_nat k + 1).
Proof.
  induction k as [|k IH]; [done|]. cbn [sum_upto]. lia.
Qed.

(** The registers at [ret], in terms of the registers at entry. *)
Lemma sum_to_n_registers (f : sum_to_n_asm.regfile) :
  let n := sum_to_n_asm.rdi f in
  let product := uint64 (n + 1) * n in
  sum_to_n_asm.run_code sum_to_n_asm.sum_to_n f =
  sum_to_n_asm.Regfile (uint64 product / 2) n (product / uint64_modulus) n.
Proof.
  destruct f as [a b d n]. cbn -[uint64 Z.mul Z.div Z.shiftr uint64_modulus].
  by rewrite Z.shiftr_div_pow2 by lia.
Qed.

(** X18. Called with [n] in [rdi], [sum_to_n] returns 1 + 2 + ... + n in
    [rax] whenever n * (n + 1) fits in 64 bits. It leaves [rdi] as it was and
    overwrites [rbx] with [n] and [rdx] with 0, whatever they held. *)
Theorem sum_to_n_correct (f : sum_to_n_asm.regfile) :
  0 ≤ sum_to_n_asm.rdi f →
  sum_to_n_asm.rdi f * (sum_to_n_asm.rdi f + 1) < uint64_modulus →
  sum_to_n_asm.run_code sum_to_n_asm.sum_to_n f =
  sum_to_n_asm.Regfile (sum_upto (Z.to_nat (sum_to_n_asm.rdi f)))
    (sum_to_n_asm.rdi f) 0 (sum_to_n_asm.rdi f).
Proof.
  intros Hn Hfit. rewrite sum_to_n_registers. cbv zeta.
  set (n := sum_to_n_asm.rdi f) in *.
  pose proof (sum_upto_gauss (Z.to_nat n)) as Hg. rewrite Z2Nat.id in Hg by done.
  assert (1 < uint64_modulus) as Hm by done.
  assert (n + 1 < uint64_modulus) as Hn1 by nia.
  assert (0 ≤ (n + 1) * n < uint64_modulus) as Hp
    by (split; [apply Z.mul_nonneg_nonneg|]; lia).
  unfold uint64. rewrite (Z.mod_small (n + 1)) by lia.
  rewrite (Z.mod_small ((n + 1) * n)) by done.
  rewrite (Z.div_small ((n + 1) * n) uint64_modulus) by done.
  f_equal. symmetry. apply Z.div_unique_exact; lia.
Qed.

Lemma sum_to_n_correct_witness :
  sum_to_n_asm.run_code sum_to_n_asm.sum_to_n
    (sum_to_n_asm.Regfile 7 7 7 100) =
  sum_to_n_asm.Regfile
    (sum_upto (Z.to_nat (sum_to_n_asm.rdi (sum_to_n_asm.Regfile 7 7 7 100))))
    (sum_to_n_asm.rdi (sum_to_n_asm.Regfile 7 7 7 100)) 0
    (sum_to_n_asm.rdi (sum_to_n_asm.Regfile 7 7 7 100)).
Proof.
  apply (sum_to_n_correct (sum_to_n_asm.Regfile 7 7 7 100)).
  - simpl. lia.
  - vm_compute. reflexivity.
Defined.

(** X19. For every 64-bit [n], [sum_to_n] returns 1 + 2 + ... + n modulo
    2^63: [mul] leaves the high half of the product in [rdx], and [shr]
    shifts only [rax]. *)
Theorem sum_to_n_wraps (f : sum_to_n_asm.regfile) :
  0 ≤ sum_to_n_asm.rdi f < uint64_modulus →
  sum_to_n_asm.rax (sum_to_n_asm.run_code sum_to_n_asm.sum_to_n f) =
  sum_upto (Z.to_nat (sum_to_n_asm.rdi f)) mod 2 ^ 63.
Proof.
  intros Hn. rewrite sum_to_n_registers. cbv zeta.
  cbn [sum_to_n_asm.rax].
  set (n := sum_to_n_asm.rdi f) in *.
  pose proof (sum_upto_gauss (Z.to_nat n)) as Hg.
  rewrite Z2Nat.id in Hg by lia.
  set (s := sum_upto (Z.to_nat n)) in *.
  assert (uint64_modulus = 2 * 2 ^ 63) as Hm by done.
  destruct (decide (n + 1 < uint64_modulus)) as [Hlt|Hge].
  - unfold uint64. rewrite (Z.mod_small (n + 1)) by lia.
    replace ((n + 1) * n) with (2 * s) by lia.
    rewrite Hm, Z.mul_mod_distr_l by lia.
    rewrite Z.mul_comm. apply Z.div_mul. lia.
  - assert (n + 1 = uint64_modulus) as Hn1 by lia.
    unfold uint64 at 2. rewrite Hn1, Z.mod_same by lia.
    change (uint64 (0 * n) / 2) with 0. symmetry.
    assert (s = (n * 1) * 2 ^ 63) as -> by lia.
    apply Z.mod_mul. lia.
Qed.

Lemma sum_to_n_wraps_witness :
  sum_to_n_asm.rax
    (sum_to_n_asm.run_code sum_to_n_asm.sum_to_n
       (sum_to_n_asm.Regfile 0 0 0 (2 ^ 33))) =
  sum_upto
    (Z.to_nat (sum_to_n_asm.rdi (sum_to_n_asm.Regfile 0 0 0 (2 ^ 33))))
    mod 2 ^ 63.
Proof.
  apply (sum_to_n_wraps (sum_to_n_asm.Regfile 0 0 0 (2 ^ 33))).
  unfold uint64_modulus. simpl. lia.
Defined.
